(** * TypedEvents: a shallow embedding of [src/events.ts]

    The dispatcher of [events.ts] is asynchronous JavaScript.  It is embedded
    here as follows.

    - JavaScript values ([any]) are the inductive type [Any].
    - A promise is described by the logical instant at which it settles and
      by how it settles ([Promise]); a promise that stays pending for ever is
      [NeverSettles].  Instants are natural numbers; two settlements at the
      same instant are served in the order in which their reactions were
      registered, as the job queue of the language does.
    - An [async] function body is a computation in the monad [Async]: it
      threads the clock, the chronological log of what happened, the local
      array [results], and the continuations that were started but not
      awaited by the body (the [async] callbacks handed to [forEach]).
    - Handlers and middleware are opaque functions of the program's user;
      they are described by what the dispatcher can observe of them:
      a call of a handler returns a promise or, for a handler that is not
      an [async] function, throws ([Reply]); a middleware calls [next],
      never calls it, or throws ([MwReply]).
    - [this.handlers] is a plain object used as a map: [Registry] lists its
      own properties in the order of their creation, [Object_keys] in the
      order of [Object.keys] (array indices first), and a read of a name
      that is no own property goes to [Object.prototype] ([get]).

    The file gives the embedding first (values, strings, promises, the
    registry and the constructor, the monad, [processEvent], the public
    operations), then the vocabulary of the properties and the example
    dispatchers, then the properties with their proofs. *)

From Stdlib Require Import List String Ascii Bool Arith Lia ZArith.
Import ListNotations.
Local Open Scope string_scope.
Local Open Scope list_scope.
Local Open Scope nat_scope.

Set Warnings "-register-all".

(** ** JavaScript values *)

Inductive Any : Type :=
| Undefined
| Bool (b : bool)
| Num (n : Z)
| Str (s : string)
| Arr (items : list Any)
| Obj (props : list (string * Any))
| TypeError (message : string).

(** [results.push(...v)]: the elements of an array value. *)
Definition spread (v : Any) : list Any :=
  match v with
  | Arr items => items
  | _ => []
  end.

(** [v.name], for an object [v]. *)
Definition field (name : string) (v : Any) : Any :=
  match v with
  | Obj props =>
      match find (fun p => (fst p =? name)%string) props with
      | Some (_, x) => x
      | None => Undefined
      end
  | _ => Undefined
  end.

(** ** Strings: [endsWith], [startsWith], [replace] *)

Module JsString.

(** [s.endsWith(suffix)]: some tail of [s] is [suffix]. *)
Fixpoint endsWith (suffix s : string) : bool :=
  (s =? suffix)%string ||
  match s with
  | EmptyString => false
  | String _ rest => endsWith suffix rest
  end.

(** [s.startsWith(p)]. *)
Definition startsWith (p s : string) : bool := String.prefix p s.

Fixpoint drop (n : nat) (s : string) : string :=
  match n, s with
  | O, _ => s
  | S _, EmptyString => EmptyString
  | S m, String _ rest => drop m rest
  end.

(** [s.replace(pattern, replacement)] with a string pattern: only the
    FIRST occurrence of [pattern] is replaced. *)
Fixpoint replace (pattern replacement s : string) : string :=
  if String.prefix pattern s
  then String.append replacement (drop (String.length pattern) s)
  else match s with
       | EmptyString => EmptyString
       | String c rest => String c (replace pattern replacement rest)
       end.

(** The spec's reading of a namespace key: the key without its last two
    characters (the marker [".*"]). *)
Definition strip_marker (key : string) : string :=
  String.substring 0 (String.length key - 2) key.

End JsString.

(** ** Promises *)

Inductive Settlement : Type :=
| Fulfilled (value : Any)
| Rejected (reason : Any).

Inductive Promise : Type :=
| SettlesAt (t : nat) (s : Settlement)
| NeverSettles.

(** The earliest rejection among [ps]; among rejections of one instant the
    one with the smallest index, whose reaction was registered first. *)
Fixpoint first_rejection (ps : list Promise) : option (nat * Any) :=
  match ps with
  | [] => None
  | SettlesAt t (Rejected e) :: rest =>
      match first_rejection rest with
      | Some (t', e') => if t' <? t then Some (t', e') else Some (t, e)
      | None => Some (t, e)
      end
  | _ :: rest => first_rejection rest
  end.

(** All of [ps] fulfil: the instant of the last one and the values in the
    order of [ps]. *)
Fixpoint fulfilments (now : nat) (ps : list Promise) : option (nat * list Any) :=
  match ps with
  | [] => Some (now, [])
  | SettlesAt t (Fulfilled v) :: rest =>
      match fulfilments now rest with
      | Some (t', vs) => Some (Nat.max t t', v :: vs)
      | None => None
      end
  | _ :: _ => None
  end.

(** [Promise.all(ps)], called at instant [now]: rejects as soon as one
    element rejects, fulfils with the array of values once all fulfilled. *)
Definition Promise_all (now : nat) (ps : list Promise) : Promise :=
  match first_rejection ps with
  | Some (t, e) => SettlesAt (Nat.max now t) (Rejected e)
  | None =>
      match fulfilments now ps with
      | Some (t, vs) => SettlesAt t (Fulfilled (Arr vs))
      | None => NeverSettles
      end
  end.

(** The outcome object that [Promise.allSettled] builds for one element. *)
Definition outcome_marker (s : Settlement) : Any :=
  match s with
  | Fulfilled v => Obj [("status", Str "fulfilled"); ("value", v)]
  | Rejected e => Obj [("status", Str "rejected"); ("reason", e)]
  end.

Fixpoint settlements (now : nat) (ps : list Promise) : option (nat * list Any) :=
  match ps with
  | [] => Some (now, [])
  | SettlesAt t s :: rest =>
      match settlements now rest with
      | Some (t', ms) => Some (Nat.max t t', outcome_marker s :: ms)
      | None => None
      end
  | NeverSettles :: _ => None
  end.

(** [Promise.allSettled(ps)]: never rejects; fulfils once every element has
    settled, with one outcome object per element. *)
Definition Promise_allSettled (now : nat) (ps : list Promise) : Promise :=
  match settlements now ps with
  | Some (t, ms) => SettlesAt t (Fulfilled (Arr ms))
  | None => NeverSettles
  end.

(** ** Handlers and middleware *)

(** What a call of a handler gives: a promise that settles [delay] instants
    after the call, or one that never settles; or the call throws.  (The
    type of a handler is [(payload, eventName?) => Promise<any>]: an [async]
    function always returns a promise, a plain function of that type can
    throw before it returns one.) *)
Inductive Reply : Type :=
| After (delay : nat) (s : Settlement)
| Hangs
| Raises (e : Any).

Definition Handler : Type := Any -> string -> Reply.

(** [handler(payload, eventName)] called at instant [now]: what it throws,
    or the promise that it returns. *)
Definition invoke (now : nat) (payload : Any) (eventName : string)
    (handler : Handler) : Any + Promise :=
  match handler payload eventName with
  | After delay s => inr (SettlesAt (now + delay) s)
  | Hangs => inr NeverSettles
  | Raises e => inl e
  end.

(** What a call [middleware(event, payload, next)] does with [next]: calls
    it (first) [delay] instants after the call, never calls it, or throws
    before having called it. *)
Inductive MwReply : Type :=
| Next (delay : nat)
| Stalls
| Throws (e : Any).

Definition Middleware : Type := string -> Any -> MwReply.

(** [new Promise((resolve) => { middleware(eventName, payload, resolve) })]
    created at instant [now]: an exception of the executor rejects the
    promise. *)
Definition new_Promise (now : nat) (eventName : string) (payload : Any)
    (mw : Middleware) : Promise :=
  match mw eventName payload with
  | Next delay => SettlesAt (now + delay) (Fulfilled Undefined)
  | Stalls => NeverSettles
  | Throws e => SettlesAt now (Rejected e)
  end.

(** ** The registry [this.handlers]

    [this.handlers] is a plain object ([= {}]) used as a map from event name
    to array of handlers.  [Registry] lists its own properties in the order
    of their creation.  A read [this.handlers[k]] of a name that is not an own property
    goes to [Object.prototype], where a dozen names are defined. *)

Definition Registry : Type := list (string * list Handler).

Fixpoint own (r : Registry) (k : string) : option (list Handler) :=
  match r with
  | [] => None
  | (k', hs) :: rest => if (k' =? k)%string then Some hs else own rest k
  end.

Definition Object_prototype : list string :=
  [ "constructor"; "hasOwnProperty"; "isPrototypeOf"; "propertyIsEnumerable";
    "toLocaleString"; "toString"; "valueOf"; "__proto__";
    "__defineGetter__"; "__defineSetter__"; "__lookupGetter__";
    "__lookupSetter__" ].

Definition inherited (k : string) : bool :=
  existsb (String.eqb k) Object_prototype.

(** The value of [this.handlers[k]]: [undefined], an array of handlers, or
    a member of [Object.prototype] (truthy, and not an array). *)
Inductive Property : Type :=
| Absent
| Listeners (hs : list Handler)
| Inherited.

Definition get (r : Registry) (k : string) : Property :=
  match own r k with
  | Some hs => Listeners hs
  | None => if inherited k then Inherited else Absent
  end.

(** [this.handlers[event] = []] *)
Definition set_empty (r : Registry) (event : string) : Registry :=
  r ++ [(event, [])].

(** [this.handlers[event].push(handler)] on an own array. *)
Fixpoint push (r : Registry) (event : string) (handler : Handler) : Registry :=
  match r with
  | [] => []
  | (k, hs) :: rest =>
      if (k =? event)%string then (k, hs ++ [handler]) :: rest
      else (k, hs) :: push rest event handler
  end.

(** The value of a decimal digit. *)
Definition digit (c : ascii) : option N :=
  let n := N_of_ascii c in
  if ((48 <=? n) && (n <=? 57))%N then Some (n - 48)%N else None.

(** The value of a string of decimal digits, after the digits read so far. *)
Fixpoint numeral (s : string) (acc : N) : option N :=
  match s with
  | EmptyString => Some acc
  | String c rest =>
      match digit c with
      | Some d => numeral rest (10 * acc + d)%N
      | None => None
      end
  end.

(** A property name that is an array index: the canonical numeral (no
    leading zero) of an integer below [2^32 - 1]. *)
Definition array_index (k : string) : option N :=
  match k with
  | EmptyString => None
  | String c rest =>
      if (Ascii.eqb c "0" && negb (String.eqb rest EmptyString))%bool then None
      else
        match numeral k 0 with
        | Some n => if (n <? 4294967295)%N then Some n else None
        | None => None
        end
  end.

Fixpoint insert_index (n : N) (k : string) (sorted : list (N * string))
    : list (N * string) :=
  match sorted with
  | [] => [(n, k)]
  | (m, k') :: rest =>
      if (n <? m)%N then (n, k) :: sorted else (m, k') :: insert_index n k rest
  end.

(** The array indices among [keys], in ascending order. *)
Fixpoint index_keys (keys : list string) : list (N * string) :=
  match keys with
  | [] => []
  | k :: rest =>
      match array_index k with
      | Some n => insert_index n k (index_keys rest)
      | None => index_keys rest
      end
  end.

Definition is_name (k : string) : bool :=
  match array_index k with
  | Some _ => false
  | None => true
  end.

(** The order in which the own property keys of an object are listed:
    the array indices in ascending order, then the other names in the order
    in which they were created. *)
Definition own_keys_order (keys : list string) : list string :=
  map snd (index_keys keys) ++ filter is_name keys.

(** The names of the own properties, in the order of their creation. *)
Definition created_keys (r : Registry) : list string := map fst r.

(** [Object.keys(this.handlers)]. *)
Definition Object_keys (r : Registry) : list string :=
  own_keys_order (created_keys r).

(** ** Construction *)

(** A schema, as [Object.entries(schema)] enumerates it. *)
Definition Schema : Type := list (string * Handler).

Definition defineEvents (schema : Schema) : Schema := schema.

Record TypedEvents : Type := mkTypedEvents {
  handlers : Registry;
  middleware : list Middleware
}.

(** A loop body that may throw. *)
Fixpoint forEach_throwing {A S : Type} (body : A -> S -> Any + S)
    (items : list A) (s : S) : Any + S :=
  match items with
  | [] => inr s
  | x :: rest =>
      match body x s with
      | inl e => inl e
      | inr s' => forEach_throwing body rest s'
      end
  end.

(** The body of the inner loop of the constructor (lines 10 to 13). *)
Definition register (entry : string * Handler) (r : Registry) : Any + Registry :=
  let '(event, handler) := entry in
  let r1 := match get r event with
            | Absent => set_empty r event
            | _ => r
            end in
  match get r1 event with
  | Listeners _ => inr (push r1 event handler)
  | _ => inl (TypeError "this.handlers[event].push is not a function")
  end.

Definition new_TypedEvents (schemas : list Schema) : Any + TypedEvents :=
  match forEach_throwing (fun schema => forEach_throwing register schema) schemas [] with
  | inl e => inl e
  | inr r => inr {| handlers := r; middleware := [] |}
  end.

(** [use(middleware)] *)
Definition use (this : TypedEvents) (mw : Middleware) : TypedEvents :=
  {| handlers := handlers this; middleware := middleware this ++ [mw] |}.

(** ** What happens during a dispatch *)

Inductive Phase : Type := Exact | Namespace | Wildcard.

Inductive Event : Type :=
| MiddlewareCalled (i : nat) (event : string) (payload : Any)
    (* [this.middleware[i](eventName, payload, resolve)] *)
| MiddlewareNext (i : nat)
    (* the dispatch resumes after middleware [i] called [next] *)
| HandlerCalled (ph : Phase) (key : string) (idx : nat)
    (payload : Any) (eventName : string)
    (* [this.handlers[key][idx](payload, eventName)] *)
| Joined (ph : Phase) (key : string) (s : Settlement)
    (* the [await] of the join over the handlers of [key] is over *)
| Settled (s : Settlement).
    (* the promise of the [async] function settles *)

(** An [async] callback that [forEach] started and nobody awaits: it waits
    for the join over the handlers of [namespace], which settles at [due]. *)
Record Waiting : Type := mkWaiting {
  due : nat;
  namespace : string;
  joined : Settlement
}.

Record State : Type := mkState {
  now : nat;
  log : list (nat * Event);
  results : list Any;
  waiting : list Waiting
}.

Definition initial (t0 : nat) : State :=
  {| now := t0; log := []; results := []; waiting := [] |}.

Definition set_now (t : nat) (s : State) : State :=
  {| now := t; log := log s; results := results s; waiting := waiting s |}.

Definition set_waiting (q : list Waiting) (s : State) : State :=
  {| now := now s; log := log s; results := results s; waiting := q |}.

Definition record (t : nat) (e : Event) (s : State) : State :=
  {| now := now s; log := log s ++ [(t, e)]; results := results s;
     waiting := waiting s |}.

Definition push_results (vs : list Any) (s : State) : State :=
  {| now := now s; log := log s; results := results s ++ vs;
     waiting := waiting s |}.

(** The rest of the [async] callback of the namespace phase, after its
    [await]: [results.push(...values)] when the join fulfilled; when it
    rejected the callback's own promise rejects, and nothing observes it. *)
Definition resume (w : Waiting) (s : State) : State :=
  let s' := record (due w) (Joined Namespace (namespace w) (joined w)) s in
  match joined w with
  | Fulfilled v => push_results (spread v) s'
  | Rejected _ => s'
  end.

Definition resume_all (q : list Waiting) (s : State) : State :=
  fold_left (fun s w => resume w s) q s.

(** The queue of waiting callbacks is kept in the order in which they
    will resume: by instant, first registered first. *)
Fixpoint schedule (w : Waiting) (q : list Waiting) : list Waiting :=
  match q with
  | [] => [w]
  | x :: rest =>
      if due x <=? due w then x :: schedule w rest else w :: x :: rest
  end.

Definition is_due (t : nat) (w : Waiting) : bool := due w <=? t.

(** Everything that resumes up to instant [t]. *)
Definition drain (t : nat) (s : State) : State :=
  resume_all (filter (is_due t) (waiting s))
             (set_waiting (filter (fun w => negb (is_due t w)) (waiting s)) s).

Definition drain_all (s : State) : State :=
  resume_all (waiting s) (set_waiting [] s).

(** ** The monad of [async] function bodies *)

Inductive Step (A : Type) : Type :=
| Returns (a : A) (s : State)
| ThrowsAt (e : Any) (s : State)
| Suspended (s : State).

Arguments Returns {A} a s.
Arguments ThrowsAt {A} e s.
Arguments Suspended {A} s.

Definition Async (A : Type) : Type := State -> Step A.

Definition ret {A : Type} (a : A) : Async A := fun s => Returns a s.

Definition throw {A : Type} (e : Any) : Async A := fun s => ThrowsAt e s.

Definition bind {A B : Type} (m : Async A) (k : A -> Async B) : Async B :=
  fun s =>
    match m s with
    | Returns a s' => k a s'
    | ThrowsAt e s' => ThrowsAt e s'
    | Suspended s' => Suspended s'
    end.

Notation "x <- m ;; k" := (bind m (fun x => k))
  (at level 61, m at next level, right associativity).
Notation "m ;; k" := (bind m (fun _ => k))
  (at level 61, right associativity).

Definition tell (e : Event) : Async unit :=
  fun s => Returns tt (record (now s) e s).

Definition clock : Async nat := fun s => Returns (now s) s.

(** [await p]: the body stops until [p] settles; whatever was waiting and is
    due by then resumes first.  A rejection is thrown into the body. *)
Definition await (p : Promise) : Async Any :=
  fun s =>
    match p with
    | SettlesAt t r =>
        let s' := set_now (Nat.max (now s) t) (drain t s) in
        match r with
        | Fulfilled v => Returns v s'
        | Rejected e => ThrowsAt e s'
        end
    | NeverSettles => Suspended (drain_all s)
    end.

(** [await] of the join of one phase, with its end written to the log. *)
Definition await_join (ph : Phase) (key : string) (p : Promise) : Async Any :=
  fun s =>
    match await p s with
    | Returns v s' => Returns v (record (now s') (Joined ph key (Fulfilled v)) s')
    | ThrowsAt e s' => ThrowsAt e (record (now s') (Joined ph key (Rejected e)) s')
    | Suspended s' => Suspended s'
    end.

(** An [async] callback reaches its [await p] and returns to [forEach]. *)
Definition spawn (ns : string) (p : Promise) : Async unit :=
  fun s =>
    match p with
    | SettlesAt t r =>
        Returns tt (set_waiting (schedule (mkWaiting t ns r) (waiting s)) s)
    | NeverSettles => Returns tt s
    end.

Fixpoint forEach {A : Type} (body : A -> Async unit) (items : list A) : Async unit :=
  match items with
  | [] => ret tt
  | x :: rest => body x ;; forEach body rest
  end.

(** ** [processEvent] *)

(** The middleware loop (lines 71 to 75). *)
Fixpoint run_middleware (mws : list Middleware) (i : nat)
    (eventName : string) (payload : Any) : Async unit :=
  match mws with
  | [] => ret tt
  | mw :: rest =>
      tell (MiddlewareCalled i eventName payload) ;;
      t <- clock ;;
      await (new_Promise t eventName payload mw) ;;
      tell (MiddlewareNext i) ;;
      run_middleware rest (S i) eventName payload
  end.

(** A call that throws or returns, in the body of an [async] function. *)
Definition returned {A : Type} (r : Any + A) : Async A :=
  match r with
  | inl e => throw e
  | inr a => ret a
  end.

(** [hs.map((handler) => handler(payload, eventName))], from index [idx]:
    the handlers are called one after the other; a call that throws ends
    the [map]. *)
Fixpoint map_handlers (ph : Phase) (key : string) (idx : nat)
    (hs : list Handler) (payload : Any) (eventName : string)
    : Async (list Promise) :=
  match hs with
  | [] => ret []
  | handler :: rest =>
      tell (HandlerCalled ph key idx payload eventName) ;;
      t <- clock ;;
      execution <- returned (invoke t payload eventName handler) ;;
      executions <- map_handlers ph key (S idx) rest payload eventName ;;
      ret (execution :: executions)
  end.

(** [collectResults ? Promise.all(executions) : Promise.allSettled(executions)] *)
Definition join (collectResults : bool) (executions : list Promise) : Async Promise :=
  t <- clock ;;
  ret (if collectResults then Promise_all t executions
       else Promise_allSettled t executions).

Definition results_push (v : Any) : Async unit :=
  fun s => Returns tt (push_results (spread v) s).

(** The exact-match phase (lines 78 to 83, [key] is [eventName]) and the
    wildcard phase (lines 99 to 104, [key] is ["*"]) are the same code. *)
Definition listeners_phase (this : TypedEvents) (ph : Phase) (key : string)
    (eventName : string) (payload : Any) (collectResults : bool) : Async unit :=
  match get (handlers this) key with
  | Absent => ret tt
  | Inherited =>
      throw (TypeError "this.handlers[eventName].map is not a function")
  | Listeners hs =>
      executions <- map_handlers ph key 0 hs payload eventName ;;
      p <- join collectResults executions ;;
      v <- await_join ph key p ;;
      results_push v
  end.

(** The filter of the namespace phase (lines 88 and 89). *)
Definition namespace_filter (eventName : string) (registeredEvent : string) : bool :=
  JsString.endsWith ".*" registeredEvent &&
  JsString.startsWith (JsString.replace ".*" "" registeredEvent) eventName.

(** [this.handlers[ns]] for a key that [Object.keys] gave. *)
Definition listeners (r : Registry) (ns : string) : list Handler :=
  match own r ns with
  | Some hs => hs
  | None => []
  end.

(** A call of an [async] function whose promise the caller drops: what
    the body throws before its first [await] rejects that promise, and the
    caller goes on. *)
Definition unobserved (body : Async unit) : Async unit :=
  fun s =>
    match body s with
    | ThrowsAt _ s' => Returns tt s'
    | r => r
    end.

(** The [async] callback given to [forEach] (lines 91 to 96): it calls the
    handlers, reaches its [await] and gives the control back; its
    [results.push] happens when it resumes ([resume]). *)
Definition namespace_callback (this : TypedEvents) (eventName : string)
    (payload : Any) (collectResults : bool) (ns : string) : Async unit :=
  unobserved
    (executions <- map_handlers Namespace ns 0 (listeners (handlers this) ns)
                     payload eventName ;;
     p <- join collectResults executions ;;
     spawn ns p).

Definition get_results : Async (list Any) := fun s => Returns (results s) s.

Definition processEvent (this : TypedEvents) (eventName : string)
    (payload : Any) (collectResults : bool) : Async Any :=
  (* Run middleware *)
  run_middleware (middleware this) 0 eventName payload ;;
  (* Call specific event listeners *)
  listeners_phase this Exact eventName eventName payload collectResults ;;
  (* Call namespaced event listeners *)
  forEach (namespace_callback this eventName payload collectResults)
          (filter (namespace_filter eventName) (Object_keys (handlers this))) ;;
  (* Call wildcard listeners *)
  listeners_phase this Wildcard "*" eventName payload collectResults ;;
  res <- get_results ;;
  ret (if collectResults then Arr res else Undefined).

(** ** The public operations *)

Definition emit (this : TypedEvents) (event : string) (payload : Any) : Async Any :=
  processEvent this event payload false ;;
  ret Undefined.

Definition call (this : TypedEvents) (event : string) (payload : Any) : Async Any :=
  processEvent this event payload true.

(** A call of an [async] function at instant [t0], seen from outside: the
    promise it returns, the chronological log of the whole activity it
    caused (also after the promise settled), and the content of the array
    [results] once nothing is waiting any more.  In call mode the promise
    is fulfilled with that same array object: [Fulfilled (Arr vs)] gives
    its content at the instant of the fulfilment, [final_results] what the
    holder of the array finds in it in the end. *)
Record Run : Type := mkRun {
  promise : Promise;
  trace : list (nat * Event);
  final_results : list Any
}.

Definition finish (r : Settlement) (s : State) : Run :=
  let s' := drain_all (record (now s) (Settled r) s) in
  {| promise := SettlesAt (now s) r;
     trace := log s';
     final_results := results s' |}.

Definition start (body : Async Any) (t0 : nat) : Run :=
  match body (initial t0) with
  | Returns v s => finish (Fulfilled v) s
  | ThrowsAt e s => finish (Rejected e) s
  | Suspended s =>
      {| promise := NeverSettles; trace := log s; final_results := results s |}
  end.



(** The events of a log, without their instants. *)
Definition events_of (tr : list (nat * Event)) : list Event := map snd tr.

(** ** Reading a log, describing a dispatch *)

Definition is_call (e : Event) : bool :=
  match e with
  | HandlerCalled _ _ _ _ _ => true
  | _ => false
  end.


Definition is_middleware_event (e : Event) : bool :=
  match e with
  | MiddlewareCalled _ _ _ | MiddlewareNext _ => true
  | _ => false
  end.

(** The calls of handlers in a log, in the order in which they were made. *)
Definition calls_in (tr : list (nat * Event)) : list Event :=
  filter is_call (events_of tr).

(** The calls of the handler at index [idx] of [this.handlers[key]]. *)
Definition is_call_of (key : string) (idx : nat) (e : Event) : bool :=
  match e with
  | HandlerCalled _ k i _ _ => (k =? key)%string && (i =? idx)
  | _ => false
  end.

Definition times_called (key : string) (idx : nat) (tr : list (nat * Event)) : nat :=
  List.length (filter (is_call_of key idx) (events_of tr)).

(** The calls that one phase makes for the [n] handlers of [key]. *)
Definition calls_for (ph : Phase) (key : string) (payload : Any)
    (eventName : string) (from n : nat) : list Event :=
  map (fun idx => HandlerCalled ph key idx payload eventName) (seq from n).

(** The state in which a step leaves the activation. *)
Definition state_of {A : Type} (r : Step A) : State :=
  match r with
  | Returns _ s => s
  | ThrowsAt _ s => s
  | Suspended s => s
  end.

Definition is_namespace_join (e : Event) : bool :=
  match e with
  | Joined Namespace _ _ => true
  | _ => false
  end.

(** [s'] continues [s]: same past, and what was added satisfies [P]. *)
Definition extends (P : Event -> bool) (s s' : State) : Prop :=
  exists added, log s' = log s ++ added /\ forallb P (events_of added) = true.

(** [adds P m]: whatever [m] does and however it ends, it only adds
    events of the class [P] to the log. *)
Definition adds {A : Type} (P : Event -> bool) (m : Async A) : Prop :=
  forall s, extends P s (state_of (m s)).

(** What [finish] adds after the body: the settlement and the late joins. *)
Definition is_epilogue (e : Event) : bool :=
  match e with
  | Settled _ => true
  | e => is_namespace_join e
  end.

(** Does a promise let the join of its phase fulfil?  In call mode
    ([collectResults = true], [Promise.all]) it has to fulfil; in broadcast
    mode ([Promise.allSettled]) it has to settle. *)
Definition fulfils_in (collectResults : bool) (p : Promise) : bool :=
  match p with
  | SettlesAt _ (Fulfilled _) => true
  | SettlesAt _ (Rejected _) => negb collectResults
  | NeverSettles => false
  end.

Definition the_join (collectResults : bool) (t : nat) (executions : list Promise) : Promise :=
  if collectResults then Promise_all t executions
  else Promise_allSettled t executions.

Definition continues (eventName : string) (payload : Any) (mw : Middleware) : bool :=
  match mw eventName payload with
  | Next _ => true
  | _ => false
  end.


(** The call of the handler throws. *)
Definition raises (payload : Any) (eventName : string) (h : Handler) : bool :=
  match h payload eventName with
  | Raises _ => true
  | _ => false
  end.

(** How many handlers of the array [map] calls: it goes on to the next
    one only when the call returned. *)
Fixpoint invoked (payload : Any) (eventName : string) (hs : list Handler) : nat :=
  match hs with
  | [] => 0
  | h :: rest =>
      S (if raises payload eventName h then 0 else invoked payload eventName rest)
  end.

(** What the [map] over the array throws: what the first handler that
    throws, throws. *)
Fixpoint first_raise (payload : Any) (eventName : string) (hs : list Handler)
    : option Any :=
  match hs with
  | [] => None
  | h :: rest =>
      match h payload eventName with
      | Raises e => Some e
      | _ => first_raise payload eventName rest
      end
  end.

(** The promise that the call of a handler returns, for a call that
    returns. *)
Definition promised (now : nat) (payload : Any) (eventName : string)
    (h : Handler) : Promise :=
  match invoke now payload eventName h with
  | inr p => p
  | inl _ => NeverSettles
  end.

(** The handler returns a promise that lets the join of its phase fulfil. *)
Definition lets_pass (collectResults : bool) (payload : Any) (eventName : string)
    (h : Handler) : bool :=
  match h payload eventName with
  | After _ (Fulfilled _) => true
  | After _ (Rejected _) => negb collectResults
  | Hangs => false
  | Raises _ => false
  end.

(** The calls that the phase makes: one per handler of the array, up to
    the first call that throws. *)
Definition phase_calls (this : TypedEvents) (ph : Phase) (key : string)
    (payload : Any) (eventName : string) : list Event :=
  match get (handlers this) key with
  | Listeners hs => calls_for ph key payload eventName 0 (invoked payload eventName hs)
  | _ => []
  end.

(** The dispatch goes on after the phase. *)
Definition phase_passes (this : TypedEvents) (key : string)
    (payload : Any) (eventName : string) (collectResults : bool) : bool :=
  match get (handlers this) key with
  | Absent => true
  | Listeners hs => forallb (lets_pass collectResults payload eventName) hs
  | Inherited => false
  end.

Definition not_call (e : Event) : bool := negb (is_call e).

Definition namespace_calls (this : TypedEvents) (payload : Any)
    (eventName : string) (keys : list string) : list Event :=
  flat_map
    (fun ns => calls_for Namespace ns payload eventName 0
                 (invoked payload eventName (listeners (handlers this) ns)))
    keys.

(** The namespace keys that a dispatch of [eventName] triggers, in the
    order of [Object.keys]. *)
Definition triggered (this : TypedEvents) (eventName : string) : list string :=
  filter (namespace_filter eventName) (Object_keys (handlers this)).

(** The calls of handlers of one dispatch, as a function of the registry
    and of the behaviour of the middleware and of the exact-match handlers. *)
Definition expected_calls (this : TypedEvents) (eventName : string)
    (payload : Any) (collectResults : bool) : list Event :=
  if forallb (continues eventName payload) (middleware this) then
    phase_calls this Exact eventName payload eventName ++
    (if phase_passes this eventName payload eventName collectResults then
       namespace_calls this payload eventName (triggered this eventName) ++
       phase_calls this Wildcard "*" payload eventName
     else [])
  else [].



Definition register_all (schemas : list Schema) (r : Registry) : Any + Registry :=
  forEach_throwing (fun schema => forEach_throwing register schema) schemas r.

(** The calls of a dispatch that gets through the middleware and the
    exact-match phase: the three tiers, in this order. *)
Definition all_calls (this : TypedEvents) (eventName : string) (payload : Any)
    : list Event :=
  phase_calls this Exact eventName payload eventName ++
  namespace_calls this payload eventName (triggered this eventName) ++
  phase_calls this Wildcard "*" payload eventName.

Definition phase_eqb (a b : Phase) : bool :=
  match a, b with
  | Exact, Exact | Namespace, Namespace | Wildcard, Wildcard => true
  | _, _ => false
  end.


(** What the middleware loop writes to the log when it starts at instant
    [t] with the middleware of index [i]. *)
Fixpoint middleware_log (mws : list Middleware) (i t : nat)
    (eventName : string) (payload : Any) : list (nat * Event) :=
  match mws with
  | [] => []
  | mw :: rest =>
      (t, MiddlewareCalled i eventName payload) ::
      match mw eventName payload with
      | Next d =>
          (t + d, MiddlewareNext i) ::
          middleware_log rest (S i) (t + d) eventName payload
      | _ => []
      end
  end.


(** The spec's filter: the key ends with the marker and the key without
    its marker is a prefix of the event name. *)
Definition namespace_filter_spec (eventName : string) (registeredEvent : string) : bool :=
  JsString.endsWith ".*" registeredEvent &&
  JsString.startsWith (JsString.strip_marker registeredEvent) eventName.

(** The values with which the handlers of an array fulfil. *)
Definition fulfilled_values (payload : Any) (eventName : string)
    (hs : list Handler) : list Any :=
  flat_map
    (fun h => match h payload eventName with
              | After _ (Fulfilled v) => [v]
              | _ => []
              end)
    hs.

(** What can come after the last call of a handler: ends of joins of the
    namespace and wildcard phases, and the settlement. *)
Definition is_ending (e : Event) : bool :=
  match e with
  | Joined Namespace _ _ | Joined Wildcard _ _ | Settled _ => true
  | _ => false
  end.

(** The ends of the joins of phase [ph]. *)
Definition is_join_of (ph : Phase) (e : Event) : bool :=
  match e with
  | Joined ph' _ _ => phase_eqb ph ph'
  | _ => false
  end.

(** The handlers that a rejection of [call] can come from. *)
Definition rejects_in (this : TypedEvents) (key : string) (payload : Any)
    (eventName : string) (e : Any) : Prop :=
  exists hs h d,
    get (handlers this) key = Listeners hs /\ In h hs /\
    h payload eventName = After d (Rejected e).




(** The registry has no own property of a name of [Object.prototype]. *)
Definition prototype_free (r : Registry) : Prop :=
  forall k, inherited k = true -> own r k = None.

(** The error of the constructor. *)
Definition push_is_not_a_function : Any :=
  TypeError "this.handlers[event].push is not a function".

(** No ['*'] in the string. *)
Fixpoint no_star (s : string) : bool :=
  match s with
  | EmptyString => true
  | String c rest => negb (Ascii.eqb c "*") && no_star rest
  end.

(** A handler of [key] throws [e] when it is called. *)
Definition raises_in (this : TypedEvents) (key : string) (payload : Any)
    (eventName : string) (e : Any) : Prop :=
  exists hs h,
    get (handlers this) key = Listeners hs /\ In h hs /\
    h payload eventName = Raises e.

(** A handler of [key] answers with a promise that never settles. *)
Definition hangs_in (this : TypedEvents) (key : string) (payload : Any)
    (eventName : string) : Prop :=
  exists hs h,
    get (handlers this) key = Listeners hs /\ In h hs /\
    h payload eventName = Hangs.

(** The instants that the middleware loop takes: the sum of the delays
    after which the middleware call [next], up to the first one that does
    not. *)
Fixpoint middleware_delay (eventName : string) (payload : Any)
    (mws : list Middleware) : nat :=
  match mws with
  | [] => 0
  | mw :: rest =>
      match mw eventName payload with
      | Next d => d + middleware_delay eventName payload rest
      | _ => 0
      end
  end.

(** The delay of the handler that settles last. *)
Fixpoint latest (payload : Any) (eventName : string) (hs : list Handler) : nat :=
  match hs with
  | [] => 0
  | h :: rest =>
      match h payload eventName with
      | After d _ => Nat.max d (latest payload eventName rest)
      | _ => latest payload eventName rest
      end
  end.

(** ** Examples: the dispatcher of the README and variations of it *)

Module Readme.

Definition resolves (v : Any) : Handler := fun _ _ => After 0 (Fulfilled v).
Definition resolves_after (d : nat) (v : Any) : Handler :=
  fun _ _ => After d (Fulfilled v).
Definition rejects (e : Any) : Handler := fun _ _ => After 0 (Rejected e).

(** [async (data) => { ...; return { success: true, userId: data.id } }] *)
Definition user_created : Handler :=
  fun data _ =>
    After 0 (Fulfilled (Obj [("success", Bool true); ("userId", field "id" data)])).

Definition userEvents : Schema :=
  defineEvents
    [ ("user.created", user_created);
      ("user.updated", resolves (Obj [("updated", Bool true)]));
      ("user.*", resolves Undefined) ].

Definition orderEvents : Schema :=
  defineEvents [ ("order.created", resolves (Obj [("orderConfirmed", Bool true)])) ].

Definition globalEvents : Schema :=
  defineEvents [ ("*", resolves Undefined) ].

Definition eventSchemas : list Schema := [userEvents; orderEvents; globalEvents].

(** [(event, payload, next) => { console.log(...); next() }] *)
Definition logging : Middleware := fun _ _ => Next 0.

(** [{ id: '123', name: 'Alice' }] *)
Definition alice : Any := Obj [("id", Str "123"); ("name", Str "Alice")].

End Readme.

(** [new TypedEvents(schemas)] followed by one [use] per middleware. *)
Definition built (schemas : list Schema) (mws : list Middleware) : TypedEvents :=
  match new_TypedEvents schemas with
  | inr this => fold_left use mws this
  | inl _ => {| handlers := []; middleware := [] |}
  end.

(** [events] of the README. *)
Definition readme_events : TypedEvents :=
  built Readme.eventSchemas [Readme.logging].

(** The value with which the ['user.created'] handler of the README
    answers the payload [alice]: [{ success: true, userId: '123' }]. *)
Definition created_alice : Any :=
  Obj [("success", Bool true); ("userId", Str "123")].

(** A broadcast in which one handler of each tier is present and the
    exact-match handler rejects. *)
Definition failing_schemas : list Schema :=
  [ defineEvents
      [ ("user.created", Readme.rejects (Str "boom"));
        ("user.updated", Readme.resolves (Str "updated"));
        ("user.*", Readme.resolves (Str "namespace")) ];
    defineEvents [ ("*", Readme.resolves (Str "wildcard")) ] ].

Definition failing_events : TypedEvents := built failing_schemas [Readme.logging].



(** A chain of two middleware: the second calls [next] three instants
    after it was called. *)
Definition slow_middleware : Middleware := fun _ _ => Next 3.




(** The handler of ['user.*'] rejects. *)
Definition rejecting_namespace_schemas : list Schema :=
  [ defineEvents
      [ ("user.created", Readme.user_created);
        ("user.*", Readme.rejects (Str "boom")) ] ].

Definition rejecting_namespace_events : TypedEvents :=
  built rejecting_namespace_schemas [].

(** The handler of ['user.*'] answers five instants after its call. *)
Definition slow_namespace_schemas : list Schema :=
  [ defineEvents
      [ ("user.created", Readme.resolves (Str "exact"));
        ("user.*", Readme.resolves_after 5 (Str "namespace")) ];
    defineEvents [ ("*", Readme.resolves (Str "wildcard")) ] ].

Definition slow_namespace_events : TypedEvents :=
  built slow_namespace_schemas [].

(** A key in which the marker occurs twice. *)
Definition nested_schemas : list Schema :=
  [ defineEvents
      [ ("a.*.b.c", Readme.resolves (Str "exact"));
        ("a.b.*.c", Readme.resolves (Str "other"));
        ("a.*.b.*", Readme.resolves (Str "namespace")) ] ].

Definition nested_events : TypedEvents := built nested_schemas [].


(** The handler of ['user.created'] never settles. *)
Definition pending : Handler := fun _ _ => Hangs.

Definition pending_events : TypedEvents :=
  built [ defineEvents [ ("user.created", pending);
                         ("user.*", Readme.resolves Undefined) ];
          Readme.globalEvents ]
        [Readme.logging].






(** A dispatcher that knows ['order.created'] only. *)
Definition order_events : TypedEvents :=
  built [Readme.orderEvents] [Readme.logging].

(** Handlers that take their time: two for ['job.done'], from two schemas,
    one for ['job.*'] and one for ['*'], behind the slow middleware. *)
Definition timed_events : TypedEvents :=
  built [ defineEvents [ ("job.done", Readme.resolves_after 2 (Str "a"));
                         ("job.*", Readme.resolves_after 20 (Str "n")) ];
          defineEvents [ ("job.done", Readme.resolves_after 7 (Str "b"));
                         ("*", Readme.resolves_after 4 (Str "w")) ] ]
        [slow_middleware].

(** * Properties *)

(** ** Reading a log *)

Lemma events_of_app (l1 l2 : list (nat * Event)) :
  events_of (l1 ++ l2) = events_of l1 ++ events_of l2.
Proof. apply map_app. Qed.

Lemma calls_in_app (l1 l2 : list (nat * Event)) :
  calls_in (l1 ++ l2) = calls_in l1 ++ calls_in l2.
Proof. unfold calls_in. now rewrite events_of_app, filter_app. Qed.

(** *** What the waiting callbacks add to a log: only ends of namespace joins *)

Lemma extends_refl P s : extends P s s.
Proof. exists []. now rewrite app_nil_r. Qed.

Lemma extends_trans P s1 s2 s3 :
  extends P s1 s2 -> extends P s2 s3 -> extends P s1 s3.
Proof.
  intros [a1 [E1 F1]] [a2 [E2 F2]]. exists (a1 ++ a2). split.
  - now rewrite E2, E1, app_assoc.
  - now rewrite events_of_app, forallb_app, F1, F2.
Qed.

Lemma extends_weaken (P Q : Event -> bool) s s' :
  (forall e, P e = true -> Q e = true) -> extends P s s' -> extends Q s s'.
Proof.
  intros PQ [a [E F]]. exists a. split; [exact E|].
  rewrite forallb_forall in *. auto.
Qed.

Lemma extends_record (P : Event -> bool) t e s :
  P e = true -> extends P s (record t e s).
Proof. intros H. exists [(t, e)]. simpl. now rewrite H. Qed.

Lemma extends_set_now P t s : extends P s (set_now t s).
Proof. exists []. simpl. now rewrite app_nil_r. Qed.

Lemma extends_set_waiting P q s : extends P s (set_waiting q s).
Proof. exists []. simpl. now rewrite app_nil_r. Qed.

Lemma extends_push_results P vs s : extends P s (push_results vs s).
Proof. exists []. simpl. now rewrite app_nil_r. Qed.

Lemma extends_resume w s : extends is_namespace_join s (resume w s).
Proof.
  unfold resume. destruct (joined w).
  - eapply extends_trans; [|apply extends_push_results].
    now apply extends_record.
  - now apply extends_record.
Qed.

Lemma extends_resume_all q : forall s, extends is_namespace_join s (resume_all q s).
Proof.
  induction q as [|w q IH]; intros s; simpl.
  - apply extends_refl.
  - eapply extends_trans; [apply extends_resume|apply IH].
Qed.

Lemma extends_drain t s : extends is_namespace_join s (drain t s).
Proof.
  unfold drain. eapply extends_trans; [|apply extends_resume_all].
  apply extends_set_waiting.
Qed.

Lemma extends_drain_all s : extends is_namespace_join s (drain_all s).
Proof.
  unfold drain_all. eapply extends_trans; [|apply extends_resume_all].
  apply extends_set_waiting.
Qed.

(** With nothing waiting, nothing resumes. *)
Lemma drain_idle t s : waiting s = [] -> drain t s = s.
Proof. intros H. unfold drain. rewrite H. simpl. destruct s; simpl in *; now subst. Qed.

Lemma drain_all_idle s : waiting s = [] -> drain_all s = s.
Proof. intros H. unfold drain_all. rewrite H. simpl. destruct s; simpl in *; now subst. Qed.

(** An extension that adds no call leaves the calls as they were. *)
Lemma extends_calls (P : Event -> bool) s s' :
  (forall e, P e = true -> is_call e = false) ->
  extends P s s' -> calls_in (log s') = calls_in (log s).
Proof.
  intros HP [a [E F]]. rewrite E, calls_in_app.
  replace (calls_in a) with (@nil Event); [now rewrite app_nil_r|].
  unfold calls_in. symmetry.
  rewrite forallb_forall in F.
  induction (events_of a) as [|e l IH]; simpl; [reflexivity|].
  rewrite (HP e) by (apply F; now left). apply IH. intros x Hx. apply F. now right.
Qed.

(** ** What a computation adds to the log *)

Section Adds.

Variable P : Event -> bool.

Lemma adds_ret A (a : A) : adds P (ret a).
Proof. intros s. apply extends_refl. Qed.


Lemma adds_clock : adds P clock.
Proof. intros s. apply extends_refl. Qed.


Lemma adds_results_push v : adds P (results_push v).
Proof. intros s. apply extends_push_results. Qed.

Lemma adds_bind A B (m : Async A) (k : A -> Async B) :
  adds P m -> (forall a, adds P (k a)) -> adds P (bind m k).
Proof.
  intros Hm Hk s. unfold bind. specialize (Hm s).
  destruct (m s) as [a s'|e s'|s'] eqn:E; simpl in *; auto.
  eapply extends_trans; [exact Hm|apply Hk].
Qed.



Lemma adds_join c ex : adds P (join c ex).
Proof. intros s. apply extends_refl. Qed.


Lemma adds_tell e : P e = true -> adds P (tell e).
Proof. intros H s. now apply extends_record. Qed.


(** From here on [P] contains the ends of the namespace joins, which may
    show up at any [await]. *)
Hypothesis P_namespace_join : forall e, is_namespace_join e = true -> P e = true.

Lemma adds_await p : adds P (await p).
Proof.
  intros s. unfold await. destruct p as [t r|].
  - assert (extends P s (set_now (Nat.max (now s) t) (drain t s))) as H.
    { eapply extends_trans; [|apply extends_set_now].
      eapply extends_weaken; [exact P_namespace_join|apply extends_drain]. }
    destruct r; exact H.
  - simpl. eapply extends_weaken; [exact P_namespace_join|apply extends_drain_all].
Qed.

Lemma adds_await_join ph key p :
  (forall r, P (Joined ph key r) = true) -> adds P (await_join ph key p).
Proof.
  intros H s. unfold await_join. pose proof (adds_await p s) as Hs.
  destruct (await p s) as [v s'|e s'|s']; simpl in *; auto;
    (eapply extends_trans; [exact Hs|now apply extends_record]).
Qed.




Lemma adds_run_middleware eventName payload mws :
  (forall e, is_middleware_event e = true -> P e = true) ->
  forall i, adds P (run_middleware mws i eventName payload).
Proof.
  intros H. induction mws as [|mw mws IH]; intros i; simpl.
  - apply adds_ret.
  - apply adds_bind; [apply adds_tell; now apply H|intros _].
    apply adds_bind; [apply adds_clock|intros t].
    apply adds_bind; [apply adds_await|intros _].
    apply adds_bind; [apply adds_tell; now apply H|intros _]. apply IH.
Qed.

End Adds.

Lemma extends_finish r s :
  extends is_epilogue s
    (drain_all (record (now s) (Settled r) s)).
Proof.
  apply extends_trans with (record (now s) (Settled r) s).
  { now apply extends_record. }
  eapply extends_weaken; [|apply extends_drain_all].
  intros e He. destruct e; simpl in *; try discriminate. exact He.
Qed.

(** The log of a run is the log of its body, continued by the epilogue. *)
Lemma trace_start (body : Async Any) t0 :
  exists added,
    trace (start body t0) = log (state_of (body (initial t0))) ++ added /\
    forallb is_epilogue (events_of added) = true.
Proof.
  unfold start. destruct (body (initial t0)) as [v s|e s|s]; simpl.
  - apply (extends_finish (Fulfilled v) s).
  - apply (extends_finish (Rejected e) s).
  - exists []. now rewrite app_nil_r.
Qed.

Lemma calls_in_epilogue added :
  forallb is_epilogue (events_of added) = true -> calls_in added = [].
Proof.
  unfold calls_in. induction (events_of added) as [|e l IH]; simpl; [reflexivity|].
  intros H. apply andb_true_iff in H as [He Hl].
  destruct e; simpl in *; try discriminate; auto.
Qed.

Lemma calls_in_start (body : Async Any) t0 :
  calls_in (trace (start body t0)) = calls_in (log (state_of (body (initial t0)))).
Proof.
  destruct (trace_start body t0) as [added [E F]].
  now rewrite E, calls_in_app, (calls_in_epilogue _ F), app_nil_r.
Qed.

(** ** The joins *)

Lemma join_eq c ex s : join c ex s = Returns (the_join c (now s) ex) s.
Proof. reflexivity. Qed.

Lemma first_rejection_none ps :
  forallb (fulfils_in true) ps = true -> first_rejection ps = None.
Proof.
  induction ps as [|[t [v|e]|] ps IH]; simpl; intros H; try discriminate; auto.
Qed.

Lemma fulfilments_some t ps :
  forallb (fulfils_in true) ps = true -> exists t' vs, fulfilments t ps = Some (t', vs).
Proof.
  induction ps as [|[t1 [v|e]|] ps IH]; simpl; intros H; try discriminate.
  - eauto.
  - destruct (IH H) as [t' [vs E]]. rewrite E. eauto.
Qed.

Lemma fulfilments_none t ps :
  forallb (fulfils_in true) ps = false -> fulfilments t ps = None.
Proof.
  induction ps as [|[t1 [v|e]|] ps IH]; simpl; intros H; try discriminate; auto.
  now rewrite (IH H).
Qed.

Lemma settlements_some t ps :
  forallb (fulfils_in false) ps = true -> exists t' ms, settlements t ps = Some (t', ms).
Proof.
  induction ps as [|[t1 r|] ps IH]; simpl; intros H; try discriminate.
  - eauto.
  - assert (forallb (fulfils_in false) ps = true) as H'.
    { destruct r; simpl in H; exact H. }
    destruct (IH H') as [t' [ms E]]. rewrite E. eauto.
Qed.

Lemma settlements_none t ps :
  forallb (fulfils_in false) ps = false -> settlements t ps = None.
Proof.
  induction ps as [|[t1 r|] ps IH]; simpl; intros H; try discriminate; auto.
  assert (forallb (fulfils_in false) ps = false) as H'.
  { destruct r; simpl in H; exact H. }
  now rewrite (IH H').
Qed.

(** A join fulfils exactly when every promise lets it. *)
Lemma join_passes c t ps :
  forallb (fulfils_in c) ps = true ->
  exists t' vs, the_join c t ps = SettlesAt t' (Fulfilled (Arr vs)).
Proof.
  intros H. destruct c; unfold the_join, Promise_all, Promise_allSettled.
  - rewrite (first_rejection_none _ H).
    destruct (fulfilments_some t _ H) as [t' [vs E]]. rewrite E. eauto.
  - destruct (settlements_some t _ H) as [t' [ms E]]. rewrite E. eauto.
Qed.

Lemma join_blocks c t ps :
  forallb (fulfils_in c) ps = false ->
  forall t' v, the_join c t ps <> SettlesAt t' (Fulfilled v).
Proof.
  intros H t' v. destruct c; unfold the_join, Promise_all, Promise_allSettled.
  - destruct (first_rejection ps) as [[t1 e]|]; [discriminate|].
    now rewrite (fulfilments_none t _ H).
  - now rewrite (settlements_none t _ H).
Qed.

(** [Promise.allSettled] never rejects. *)
Lemma allSettled_never_rejects t ps t' e :
  Promise_allSettled t ps <> SettlesAt t' (Rejected e).
Proof.
  unfold Promise_allSettled. destruct (settlements t ps) as [[t1 ms]|]; discriminate.
Qed.




(** ** The behaviour of the user's functions, as seen by one dispatch *)

Lemma lets_pass_invoke c t payload eventName hs :
  forallb (fulfils_in c) (map (promised t payload eventName) hs)
  = forallb (lets_pass c payload eventName) hs.
Proof.
  induction hs as [|h hs IH]; simpl; [reflexivity|]. rewrite IH. f_equal.
  unfold promised, invoke, lets_pass.
  destruct (h payload eventName) as [d [v|e]| |e]; reflexivity.
Qed.

(** Handlers that let the join fulfil are all called: none throws. *)
Lemma lets_pass_returns c payload eventName hs :
  forallb (lets_pass c payload eventName) hs = true ->
  first_raise payload eventName hs = None /\
  invoked payload eventName hs = List.length hs.
Proof.
  induction hs as [|h hs IH]; simpl; [auto|].
  intros H. apply andb_true_iff in H as [Hh H]. destruct (IH H) as [F I].
  unfold lets_pass in Hh. unfold raises.
  destruct (h payload eventName) as [d r| |e]; try discriminate; auto.
Qed.


Lemma first_raise_in payload eventName hs e :
  first_raise payload eventName hs = Some e ->
  exists h, In h hs /\ h payload eventName = Raises e.
Proof.
  induction hs as [|h hs IH]; simpl; [discriminate|].
  destruct (h payload eventName) as [d r| |e1] eqn:E; intros H.
  - destruct (IH H) as [h' [Hin Hh]]. eauto.
  - destruct (IH H) as [h' [Hin Hh]]. eauto.
  - inversion H; subst. eauto.
Qed.



Lemma invoked_all payload eventName hs :
  first_raise payload eventName hs = None ->
  invoked payload eventName hs = List.length hs.
Proof.
  induction hs as [|h hs IH]; simpl; [reflexivity|].
  unfold raises. destruct (h payload eventName) as [d r| |e]; try discriminate;
    intros H; now rewrite IH.
Qed.

(** ** The phases, one by one *)

Lemma calls_in_stamped t es :
  calls_in (map (pair t) es) = filter is_call es.
Proof.
  unfold calls_in, events_of. rewrite map_map. simpl. now rewrite map_id.
Qed.

Lemma events_of_stamped t es : events_of (map (pair t) es) = es.
Proof. unfold events_of. rewrite map_map. simpl. apply map_id. Qed.

Lemma calls_for_are_calls ph key payload eventName from n :
  filter is_call (calls_for ph key payload eventName from n)
  = calls_for ph key payload eventName from n.
Proof.
  unfold calls_for. induction (seq from n) as [|i l IH]; simpl; [reflexivity|].
  now rewrite IH.
Qed.

(** The [map] over the handlers calls them in the order of the array and
    within one instant, up to the first call that throws: it returns the
    promises of all the handlers, or throws what that handler threw. *)
Lemma map_handlers_outcome hs : forall ph key idx payload eventName s,
  exists s',
    map_handlers ph key idx hs payload eventName s
      = match first_raise payload eventName hs with
        | None => Returns (map (promised (now s) payload eventName) hs) s'
        | Some e => ThrowsAt e s'
        end /\
    log s' = log s ++ map (pair (now s))
                          (calls_for ph key payload eventName idx
                             (invoked payload eventName hs)) /\
    now s' = now s /\ results s' = results s /\ waiting s' = waiting s.
Proof.
  induction hs as [|h hs IH]; intros ph key idx payload eventName s; simpl.
  - exists s. unfold ret. rewrite app_nil_r. repeat split.
  - destruct (IH ph key (S idx) payload eventName
                (record (now s) (HandlerCalled ph key idx payload eventName) s))
      as [s' [E [L [N [R W]]]]].
    unfold bind at 1. unfold tell. unfold bind at 1. unfold clock.
    unfold bind at 1. unfold promised at 1. unfold raises, invoke.
    destruct (h payload eventName) as [d r| |e]; simpl.
    + exists s'. unfold bind. simpl in *. rewrite E.
      destruct (first_raise payload eventName hs); repeat split; auto;
        rewrite L, <- app_assoc; reflexivity.
    + exists s'. unfold bind. simpl in *. rewrite E.
      destruct (first_raise payload eventName hs); repeat split; auto;
        rewrite L, <- app_assoc; reflexivity.
    + eexists. split; [reflexivity|]. repeat split.
Qed.

(** When no call throws, the [map] calls all the handlers and returns
    their promises. *)
Lemma map_handlers_spec hs : forall ph key idx payload eventName s,
  first_raise payload eventName hs = None ->
  exists s',
    map_handlers ph key idx hs payload eventName s
      = Returns (map (promised (now s) payload eventName) hs) s' /\
    log s' = log s ++ map (pair (now s))
                          (calls_for ph key payload eventName idx (List.length hs)) /\
    now s' = now s /\ results s' = results s /\ waiting s' = waiting s.
Proof.
  intros ph key idx payload eventName s F.
  destruct (map_handlers_outcome hs ph key idx payload eventName s)
    as [s' [E [L [N [R W]]]]].
  rewrite F in E. rewrite (invoked_all _ _ _ F) in L.
  exists s'. auto.
Qed.


(** *** Middleware *)

Lemma run_middleware_returns eventName payload mws :
  forallb (continues eventName payload) mws = true ->
  forall i s, exists s', run_middleware mws i eventName payload s = Returns tt s'.
Proof.
  induction mws as [|mw mws IH]; simpl; intros H i s.
  - now exists s.
  - apply andb_true_iff in H as [Hmw H]. unfold continues in Hmw.
    unfold bind at 1. simpl. unfold bind at 1. simpl.
    unfold bind at 1, new_Promise.
    destruct (mw eventName payload) as [d| |e]; try discriminate. simpl.
    unfold bind at 1. simpl. apply IH. exact H.
Qed.

Lemma run_middleware_blocks eventName payload mws :
  forallb (continues eventName payload) mws = false ->
  forall i s s', run_middleware mws i eventName payload s <> Returns tt s'.
Proof.
  induction mws as [|mw mws IH]; simpl; intros H i s s'; [discriminate|].
  unfold bind at 1. simpl. unfold bind at 1. simpl.
  unfold bind at 1, new_Promise. unfold continues in H at 1.
  destruct (mw eventName payload) as [d| |e]; simpl in *; try discriminate.
  unfold bind at 1. simpl. apply IH. exact H.
Qed.

(** The middleware loop throws only what a middleware threw. *)
Lemma run_middleware_throws eventName payload mws :
  forall i s e s',
    run_middleware mws i eventName payload s = ThrowsAt e s' ->
    exists mw, In mw mws /\ mw eventName payload = Throws e.
Proof.
  induction mws as [|mw mws IH]; simpl; intros i s e s' H; [discriminate|].
  unfold bind at 1 in H. simpl in H. unfold bind at 1 in H. simpl in H.
  unfold bind at 1, new_Promise in H.
  destruct (mw eventName payload) as [d| |e1] eqn:E; simpl in H; try discriminate.
  - unfold bind at 1 in H. simpl in H.
    destruct (IH _ _ _ _ H) as [mw' [I T]]. exists mw'. auto.
  - inversion H; subst. exists mw. auto.
Qed.

(** *** The exact-match phase and the wildcard phase *)

Lemma calls_after (A : Type) (m : Async A) s :
  adds not_call m -> calls_in (log (state_of (m s))) = calls_in (log s).
Proof.
  intros H. apply extends_calls with (P := not_call); [|apply H].
  intros e He. unfold not_call in He. now destruct (is_call e).
Qed.

(** What follows the calls of a phase adds no call. *)
Lemma adds_joining ph key c ex :
  adds not_call (p <- join c ex ;; v <- await_join ph key p ;; results_push v).
Proof.
  apply adds_bind; [apply adds_join|intros p].
  apply adds_bind; [|intros v; apply adds_results_push].
  apply adds_await_join; [|reflexivity].
  intros e. now destruct e.
Qed.

Lemma listeners_phase_calls this ph key eventName payload c s :
  calls_in (log (state_of (listeners_phase this ph key eventName payload c s)))
  = calls_in (log s) ++ phase_calls this ph key payload eventName.
Proof.
  unfold listeners_phase, phase_calls.
  destruct (get (handlers this) key) as [|hs|]; simpl; try now rewrite app_nil_r.
  destruct (map_handlers_outcome hs ph key 0 payload eventName s)
    as [s1 [E [L [N [R W]]]]].
  unfold bind at 1. rewrite E.
  destruct (first_raise payload eventName hs) as [e|].
  - simpl. now rewrite L, calls_in_app, calls_in_stamped, calls_for_are_calls.
  - rewrite (calls_after _ _ s1 (adds_joining ph key c _)).
    now rewrite L, calls_in_app, calls_in_stamped, calls_for_are_calls.
Qed.

Lemma listeners_phase_returns this ph key eventName payload c s :
  phase_passes this key payload eventName c = true ->
  exists s', listeners_phase this ph key eventName payload c s = Returns tt s'.
Proof.
  unfold listeners_phase, phase_passes.
  destruct (get (handlers this) key) as [|hs|]; intros H; try discriminate.
  - now exists s.
  - destruct (map_handlers_spec hs ph key 0 payload eventName s
                (proj1 (lets_pass_returns _ _ _ _ H)))
      as [s1 [E [L [N [R W]]]]].
    unfold bind at 1. rewrite E. unfold bind at 1. rewrite join_eq.
    rewrite <- (lets_pass_invoke c (now s)) in H.
    destruct (join_passes c (now s1) _ H) as [t' [vs J]].
    unfold bind, await_join, await. rewrite J. simpl.
    unfold results_push. eauto.
Qed.

Lemma listeners_phase_blocks this ph key eventName payload c s :
  phase_passes this key payload eventName c = false ->
  forall s', listeners_phase this ph key eventName payload c s <> Returns tt s'.
Proof.
  unfold listeners_phase, phase_passes.
  destruct (get (handlers this) key) as [|hs|]; intros H s'; try discriminate.
  destruct (map_handlers_outcome hs ph key 0 payload eventName s)
    as [s1 [E [L [N [R W]]]]].
  unfold bind at 1. rewrite E.
  destruct (first_raise payload eventName hs) as [e|]; [discriminate|].
  unfold bind at 1. rewrite join_eq.
  rewrite <- (lets_pass_invoke c (now s)) in H.
  pose proof (join_blocks c (now s1) _ H) as J.
  unfold bind, await_join, await.
  destruct (the_join c (now s1) (map (promised (now s) payload eventName) hs))
    as [t [v|e]|]; try discriminate.
  exfalso. exact (J t v eq_refl).
Qed.

(** *** The namespace phase *)

(** The loop over the namespace keys calls the handlers of every key, up
    to the first call that throws among those of one key, and always comes
    to its end: it waits for nothing and nothing is thrown into it. *)
Lemma forEach_namespace this eventName payload c keys : forall s,
  exists s',
    forEach (namespace_callback this eventName payload c) keys s = Returns tt s' /\
    calls_in (log s') = calls_in (log s) ++ namespace_calls this payload eventName keys /\
    now s' = now s /\ results s' = results s /\
    events_of (log s') = events_of (log s) ++ namespace_calls this payload eventName keys.
Proof.
  induction keys as [|ns keys IH]; intros s; simpl.
  - exists s. rewrite !app_nil_r. repeat split.
  - destruct (map_handlers_outcome (listeners (handlers this) ns) Namespace ns 0
                payload eventName s) as [s1 [E [L [N [R W]]]]].
    assert (exists s2,
               namespace_callback this eventName payload c ns s = Returns tt s2 /\
               log s2 = log s1 /\ now s2 = now s1 /\ results s2 = results s1)
      as [s2 [Sp [L2 [N2 R2]]]].
    { unfold namespace_callback, unobserved. unfold bind at 1. rewrite E.
      destruct (first_raise payload eventName (listeners (handlers this) ns));
        [eauto|].
      unfold bind at 1. rewrite join_eq.
      unfold spawn. destruct (the_join c (now s1) _); eauto. }
    unfold bind at 1. rewrite Sp.
    destruct (IH s2) as [s' [E' [C' [N' [R' V']]]]].
    exists s'. split; [exact E'|]. repeat split; try congruence.
    + now rewrite C', L2, L, calls_in_app, calls_in_stamped,
        calls_for_are_calls, <- app_assoc.
    + now rewrite V', L2, L, events_of_app, events_of_stamped, <- app_assoc.
Qed.

(** ** Which handlers one dispatch calls *)

Lemma bind_blocked (B : Type) (m : Async unit) (k : unit -> Async B) s :
  (forall s', m s <> Returns tt s') ->
  state_of (bind m k s) = state_of (m s).
Proof.
  intros H. unfold bind. destruct (m s) as [[] s'|e s'|s']; try reflexivity.
  exfalso. exact (H s' eq_refl).
Qed.

Lemma bind_returned (A B : Type) (m : Async A) (k : A -> Async B) s a s' :
  m s = Returns a s' -> bind m k s = k a s'.
Proof. intros H. unfold bind. now rewrite H. Qed.

Lemma middleware_adds_no_call eventName payload mws i :
  adds not_call (run_middleware mws i eventName payload).
Proof.
  apply adds_run_middleware; intros e; now destruct e.
Qed.

Lemma calls_of_dispatch this eventName payload collectResults t0 :
  calls_in (trace (start (processEvent this eventName payload collectResults) t0))
  = expected_calls this eventName payload collectResults.
Proof.
  rewrite calls_in_start. unfold processEvent, expected_calls.
  set (s0 := initial t0).
  destruct (forallb (continues eventName payload) (middleware this)) eqn:Hmw.
  - destruct (run_middleware_returns _ _ _ Hmw 0 s0) as [s1 E1].
    pose proof (calls_after _ _ s0 (middleware_adds_no_call eventName payload
                                  (middleware this) 0)) as C1.
    rewrite E1 in C1. simpl in C1.
    rewrite (@bind_returned _ _ _ _ _ _ _ E1).
    pose proof (listeners_phase_calls this Exact eventName eventName payload
                  collectResults s1) as C2.
    rewrite C1 in C2. simpl in C2.
    destruct (phase_passes this eventName payload eventName collectResults) eqn:Hex.
    + destruct (listeners_phase_returns this Exact eventName eventName payload
                  collectResults s1 Hex) as [s2 E2].
      rewrite E2 in C2. simpl in C2. rewrite (@bind_returned _ _ _ _ _ _ _ E2).
      destruct (forEach_namespace this eventName payload collectResults
                  (triggered this eventName) s2) as [s3 [E3 [C3 _]]].
      fold (triggered this eventName). rewrite (@bind_returned _ _ _ _ _ _ _ E3).
      pose proof (listeners_phase_calls this Wildcard "*" eventName payload
                    collectResults s3) as C4.
      unfold bind.
      destruct (listeners_phase this Wildcard "*" eventName payload collectResults s3)
        as [[] s4|e s4|s4]; simpl in *;
        rewrite C4, C3, C2, <- app_assoc; reflexivity.
    + rewrite bind_blocked
        by (apply listeners_phase_blocks; exact Hex).
      rewrite C2. now rewrite app_nil_r.
  - rewrite bind_blocked by (apply run_middleware_blocks; exact Hmw).
    apply (calls_after _ _ s0 (middleware_adds_no_call eventName payload
                             (middleware this) 0)).
Qed.

(** ** Construction of the registry *)


Lemma own_app r1 r2 k :
  own (r1 ++ r2) k = match own r1 k with
                     | Some hs => Some hs
                     | None => own r2 k
                     end.
Proof.
  induction r1 as [|[k' hs] r1 IH]; simpl; [reflexivity|].
  destruct (k' =? k)%string; auto.
Qed.

Lemma own_push r event h k :
  own (push r event h) k
  = if (event =? k)%string
    then match own r k with Some hs => Some (hs ++ [h]) | None => None end
    else own r k.
Proof.
  induction r as [|[k' hs] r IH]; simpl.
  - now destruct (event =? k)%string.
  - destruct (k' =? event)%string eqn:E1; simpl.
    + apply String.eqb_eq in E1. subst k'. now destruct (event =? k)%string.
    + rewrite IH. destruct (k' =? k)%string eqn:E2; [|reflexivity].
      apply String.eqb_eq in E2. subst k'. rewrite String.eqb_sym in E1.
      now rewrite E1.
Qed.

Lemma keys_push r event h : created_keys (push r event h) = created_keys r.
Proof.
  unfold created_keys. induction r as [|[k hs] r IH]; simpl; [reflexivity|].
  destruct (k =? event)%string; simpl; [reflexivity|now rewrite IH].
Qed.

Lemma own_none_keys r k :
  own r k = None <-> existsb (String.eqb k) (created_keys r) = false.
Proof.
  unfold created_keys. induction r as [|[k' hs] r IH]; simpl; [tauto|].
  rewrite (String.eqb_sym k k'). destruct (k' =? k)%string; simpl; [|exact IH].
  split; discriminate.
Qed.


(** One registration: the handler goes to the end of the array of its
    event name, a new name goes to the end of the keys; it fails exactly on
    a name that [Object.prototype] defines and the registry does not. *)
Lemma register_spec event h r :
  match register (event, h) r with
  | inr r' =>
      (forall k, listeners r' k
                 = listeners r k ++ (if (event =? k)%string then [h] else [])) /\
      created_keys r'
      = (if existsb (String.eqb event) (created_keys r) then created_keys r
         else created_keys r ++ [event])
  | inl _ => own r event = None /\ inherited event = true
  end.
Proof.
  unfold register, get. destruct (own r event) as [hs|] eqn:O.
  - rewrite O. split.
    + intros k. unfold listeners. rewrite own_push.
      destruct (event =? k)%string eqn:E.
      * apply String.eqb_eq in E. subst k. now rewrite O.
      * destruct (own r k); now rewrite ?app_nil_r.
    + rewrite keys_push.
      destruct (existsb (String.eqb event) (created_keys r)) eqn:X; [reflexivity|].
      apply own_none_keys in X. congruence.
  - destruct (inherited event) eqn:I.
    + rewrite ?O, ?I. simpl. rewrite ?O, ?I. auto.
    + unfold set_empty. rewrite own_app, O. simpl. rewrite String.eqb_refl. split.
      * intros k. unfold listeners. rewrite own_push, own_app.
        destruct (event =? k)%string eqn:E.
        -- apply String.eqb_eq in E. subst k. rewrite O. simpl.
           now rewrite String.eqb_refl.
        -- destruct (own r k); simpl; rewrite ?E; now rewrite ?app_nil_r.
      * rewrite keys_push. unfold created_keys. rewrite map_app. simpl.
        apply own_none_keys in O. unfold created_keys in O. now rewrite O.
Qed.




(** ** Counting the calls of one handler *)

Lemma filter_filter_sub (A : Type) (P Q : A -> bool) l :
  (forall x, P x = true -> Q x = true) ->
  filter P (filter Q l) = filter P l.
Proof.
  intros H. induction l as [|x l IH]; simpl; [reflexivity|].
  destruct (Q x) eqn:EQ; simpl.
  - now rewrite IH.
  - destruct (P x) eqn:EP; [|exact IH]. rewrite (H x EP) in EQ. discriminate.
Qed.

Lemma calls_of_in_calls key idx tr :
  filter (is_call_of key idx) (events_of tr)
  = filter (is_call_of key idx) (calls_in tr).
Proof.
  unfold calls_in. symmetry. apply filter_filter_sub.
  intros e. now destruct e.
Qed.

Lemma calls_of_other_key key idx ph key' payload eventName from n :
  key' <> key ->
  filter (is_call_of key idx) (calls_for ph key' payload eventName from n) = [].
Proof.
  intros H. unfold calls_for. induction (seq from n) as [|i l IH]; simpl; [reflexivity|].
  apply String.eqb_neq in H. now rewrite H.
Qed.

Lemma calls_of_same_key key idx ph payload eventName n : forall from,
  filter (is_call_of key idx) (calls_for ph key payload eventName from n)
  = if (from <=? idx) && (idx <? from + n)
    then [HandlerCalled ph key idx payload eventName] else [].
Proof.
  unfold calls_for. induction n as [|n IH]; intros from.
  - cbn [seq map filter].
    destruct (Nat.leb_spec from idx), (Nat.ltb_spec idx (from + 0));
      cbn [andb]; try reflexivity; lia.
  - cbn [seq map filter is_call_of]. rewrite String.eqb_refl, IH. cbn [andb].
    destruct (Nat.eqb_spec from idx), (Nat.leb_spec (S from) idx),
      (Nat.ltb_spec idx (S from + n)), (Nat.leb_spec from idx),
      (Nat.ltb_spec idx (from + S n));
      cbn [andb]; subst; try reflexivity; lia.
Qed.

Lemma calls_of_namespace key idx this payload eventName keys :
  (forall ns, In ns keys -> ns <> key) ->
  filter (is_call_of key idx) (namespace_calls this payload eventName keys) = [].
Proof.
  unfold namespace_calls. induction keys as [|ns keys IH]; simpl; intros H; [reflexivity|].
  rewrite filter_app, calls_of_other_key by (apply H; now left).
  apply IH. intros x Hx. apply H. now right.
Qed.

(** A key that the namespace filter lets through ends in [".*"]. *)
Lemma triggered_ends_with_marker this eventName ns :
  In ns (triggered this eventName) ->
  In ns (Object_keys (handlers this)) /\
  JsString.endsWith ".*" ns = true /\
  JsString.startsWith (JsString.replace ".*" "" ns) eventName = true.
Proof.
  unfold triggered. rewrite filter_In. unfold namespace_filter.
  rewrite andb_true_iff. tauto.
Qed.

Lemma star_is_no_namespace : JsString.endsWith ".*" "*" = false.
Proof. reflexivity. Qed.

Lemma star_is_not_inherited : inherited "*" = false.
Proof. reflexivity. Qed.

(** ** Broadcast mode *)

Lemma bind_Returns (A B : Type) (m : Async A) (k : A -> Async B) s b s' :
  bind m k s = Returns b s' ->
  exists a s1, m s = Returns a s1 /\ k a s1 = Returns b s'.
Proof.
  unfold bind. destruct (m s) as [a s1|e s1|s1]; try discriminate. eauto.
Qed.

Lemma bind_ThrowsAt (A B : Type) (m : Async A) (k : A -> Async B) s e s' :
  bind m k s = ThrowsAt e s' ->
  m s = ThrowsAt e s' \/ exists a s1, m s = Returns a s1 /\ k a s1 = ThrowsAt e s'.
Proof.
  unfold bind. destruct (m s) as [a s1|e1 s1|s1]; try discriminate.
  - intros H. right. eauto.
  - intros H. inversion H; subst. now left.
Qed.

(** In broadcast mode [processEvent] returns [undefined]. *)
Lemma processEvent_broadcast_value this eventName payload s v s' :
  processEvent this eventName payload false s = Returns v s' -> v = Undefined.
Proof.
  unfold processEvent. intros H.
  apply bind_Returns in H as [? [? [_ H]]].
  apply bind_Returns in H as [? [? [_ H]]].
  apply bind_Returns in H as [? [? [_ H]]].
  apply bind_Returns in H as [? [? [_ H]]].
  apply bind_Returns in H as [? [? [_ H]]].
  unfold ret in H. now inversion H.
Qed.

(** [emit] is [processEvent] in broadcast mode. *)
Lemma start_emit this event payload t0 :
  start (emit this event payload) t0
  = start (processEvent this event payload false) t0.
Proof.
  unfold start, emit, bind.
  destruct (processEvent this event payload false (initial t0)) as [v s|e s|s] eqn:E;
    try reflexivity.
  apply processEvent_broadcast_value in E. now subst v.
Qed.

(** In broadcast mode a phase throws only on a name that is read from
    [Object.prototype], or what a handler threw when it was called:
    [Promise.allSettled] does not reject. *)
Lemma listeners_phase_broadcast_throws this ph key eventName payload s e s' :
  listeners_phase this ph key eventName payload false s = ThrowsAt e s' ->
  get (handlers this) key = Inherited \/ raises_in this key payload eventName e.
Proof.
  unfold listeners_phase.
  destruct (get (handlers this) key) as [|hs|] eqn:G; try discriminate;
    [|now left].
  intros H. right.
  destruct (map_handlers_outcome hs ph key 0 payload eventName s)
    as [s1 [E [L [N [R W]]]]].
  unfold bind at 1 in H. rewrite E in H.
  destruct (first_raise payload eventName hs) as [e0|] eqn:F.
  - inversion H; subst e0.
    destruct (first_raise_in _ _ _ _ F) as [h [Hin Hh]].
    exists hs, h. auto.
  - exfalso. unfold bind at 1 in H. rewrite join_eq in H.
    unfold bind, await_join, await, the_join in H.
    pose proof (@allSettled_never_rejects (now s1)
                  (map (promised (now s) payload eventName) hs)) as NR.
    destruct (Promise_allSettled (now s1) (map (promised (now s) payload eventName) hs))
      as [t [v|e1]|]; try discriminate.
    exact (NR t e1 eq_refl).
Qed.

Lemma star_is_own_or_absent this : get (handlers this) "*" <> Inherited.
Proof.
  unfold get. destruct (own (handlers this) "*"); [discriminate|].
  rewrite star_is_not_inherited. discriminate.
Qed.

(** In broadcast mode [processEvent] throws only what a middleware threw,
    or the [TypeError] of an event name that [Object.prototype] defines, or
    what a handler of the event name or of ['*'] threw when it was called. *)
Lemma processEvent_broadcast_throws this eventName payload s e s' :
  processEvent this eventName payload false s = ThrowsAt e s' ->
  (exists mw, In mw (middleware this) /\ mw eventName payload = Throws e) \/
  get (handlers this) eventName = Inherited \/
  raises_in this eventName payload eventName e \/
  raises_in this "*" payload eventName e.
Proof.
  unfold processEvent. intros H.
  apply bind_ThrowsAt in H as [H|[? [s1 [_ H]]]].
  { left. eapply run_middleware_throws; eauto. }
  right.
  apply bind_ThrowsAt in H as [H|[? [s2 [_ H]]]].
  { apply listeners_phase_broadcast_throws in H as [H|H]; auto. }
  apply bind_ThrowsAt in H as [H|[? [s3 [_ H]]]].
  { destruct (forEach_namespace this eventName payload false
                (filter (namespace_filter eventName) (Object_keys (handlers this))) s2)
      as [s3 [E _]]. rewrite E in H. discriminate. }
  apply bind_ThrowsAt in H as [H|[? [s4 [_ H]]]].
  { apply listeners_phase_broadcast_throws in H as [H|H]; auto.
    exfalso. exact (star_is_own_or_absent this H). }
  apply bind_ThrowsAt in H as [H|[? [s5 [_ H]]]]; discriminate.
Qed.


Lemma promise_of_returned (body : Async Any) t0 v s :
  body (initial t0) = Returns v s ->
  promise (start body t0) = SettlesAt (now s) (Fulfilled v).
Proof. intros H. unfold start. now rewrite H. Qed.

Lemma promise_rejected (body : Async Any) t0 t e :
  promise (start body t0) = SettlesAt t (Rejected e) ->
  exists s, body (initial t0) = ThrowsAt e s.
Proof.
  unfold start. destruct (body (initial t0)) as [v s|e1 s|s]; simpl;
    intros H; inversion H; subst. eauto.
Qed.

Lemma expected_calls_all this eventName payload c :
  forallb (continues eventName payload) (middleware this) = true ->
  phase_passes this eventName payload eventName c = true ->
  expected_calls this eventName payload c = all_calls this eventName payload.
Proof. intros H1 H2. unfold expected_calls, all_calls. now rewrite H1, H2. Qed.

(** ** Wildcard handlers *)

Lemma phase_calls_own this ph key payload eventName hs :
  own (handlers this) key = Some hs ->
  phase_calls this ph key payload eventName
  = calls_for ph key payload eventName 0 (invoked payload eventName hs).
Proof. intros H. unfold phase_calls, get. now rewrite H. Qed.


Lemma calls_of_phase_other_key this ph key' key idx payload eventName :
  key' <> key ->
  filter (is_call_of key idx) (phase_calls this ph key' payload eventName) = [].
Proof.
  intros H. unfold phase_calls. destruct (get (handlers this) key'); try reflexivity.
  now apply calls_of_other_key.
Qed.

Lemma triggered_is_not_star this eventName ns :
  In ns (triggered this eventName) -> ns <> "*".
Proof.
  intros H E. subst ns. apply triggered_ends_with_marker in H as [_ [H _]].
  rewrite star_is_no_namespace in H. discriminate.
Qed.

(** C8 (amended).  If handlers are registered under the literal key ["*"],
    then in every dispatch, in either mode, in which every middleware calls
    [next] and the exact-match phase lets the dispatch go on (the event
    name is a key of the registry or no name of [Object.prototype]; every
    exact-match handler returns a promise, which settles in broadcast mode
    and fulfils in call mode), each wildcard handler before which no
    wildcard handler throws when it is called, is called: exactly once, in
    the wildcard phase, with the payload and the event name, when the event
    name is not ["*"], whatever exact or namespace keys the event also
    matches (1); exactly twice, once as exact match and once as wildcard,
    when the event name is ["*"] itself (2). *)
Theorem C8_wildcard_called_once this eventName payload c t0 hs idx :
  own (handlers this) "*" = Some hs ->
  idx < invoked payload eventName hs ->
  forallb (continues eventName payload) (middleware this) = true ->
  phase_passes this eventName payload eventName c = true ->
  (eventName <> "*" ->
   filter (is_call_of "*" idx)
          (events_of (trace (start (processEvent this eventName payload c) t0)))
   = [HandlerCalled Wildcard "*" idx payload eventName] /\
   times_called "*" idx (trace (start (processEvent this eventName payload c) t0)) = 1) /\
  (eventName = "*" ->
   filter (is_call_of "*" idx)
          (events_of (trace (start (processEvent this eventName payload c) t0)))
   = [HandlerCalled Exact "*" idx payload eventName;
      HandlerCalled Wildcard "*" idx payload eventName] /\
   times_called "*" idx (trace (start (processEvent this eventName payload c) t0)) = 2).
Proof.
  intros Hown Hidx Hmw Hex.
  assert (filter (is_call_of "*" idx)
            (events_of (trace (start (processEvent this eventName payload c) t0)))
          = filter (is_call_of "*" idx)
              (phase_calls this Exact eventName payload eventName) ++
            [HandlerCalled Wildcard "*" idx payload eventName]) as H.
  { rewrite calls_of_in_calls, calls_of_dispatch,
      (expected_calls_all _ _ _ _ Hmw Hex).
    unfold all_calls. rewrite !filter_app.
    rewrite calls_of_namespace
      by (intros ns Hns; exact (triggered_is_not_star _ _ _ Hns)).
    rewrite (phase_calls_own _ Wildcard _ _ _ _ Hown), calls_of_same_key. simpl.
    destruct (Nat.ltb_spec idx (invoked payload eventName hs)); [reflexivity|lia]. }
  unfold times_called. rewrite H. split.
  - intros Hname. rewrite calls_of_phase_other_key by exact Hname. auto.
  - intros ->. rewrite (phase_calls_own _ Exact _ _ _ _ Hown), calls_of_same_key.
    simpl. destruct (Nat.ltb_spec idx (invoked payload "*" hs)); [auto|lia].
Qed.

(** The dispatcher of the README, [emit('user.created', 1)]: the wildcard
    handler is called once. *)
Lemma C8_wildcard_called_once_witness :
  own (handlers readme_events) "*" = Some [Readme.resolves Undefined] /\
  forallb (continues "user.created" (Num 1)) (middleware readme_events) = true /\
  phase_passes readme_events "user.created" (Num 1) "user.created" false = true /\
  times_called "*" 0
    (trace (start (processEvent readme_events "user.created" (Num 1) false) 0)) = 1.
Proof.
  split; [reflexivity|]. split; [reflexivity|]. split; [reflexivity|].
  destruct (C8_wildcard_called_once readme_events "user.created" (Num 1) false 0
              [Readme.resolves Undefined] 0) as [Hother _].
  - reflexivity.
  - simpl. lia.
  - reflexivity.
  - reflexivity.
  - apply Hother. discriminate.
Defined.

(** C8, as stated, fails when the emitted name is ["*"] itself (a key of
    the schemas, so a name that [emit] accepts): the exact-match phase and
    the wildcard phase both call the handlers of ["*"]. *)
Lemma C8_counterexample_emit_star :
  own (handlers readme_events) "*" = Some [Readme.resolves Undefined] /\
  forallb (continues "*" (Num 1)) (middleware readme_events) = true /\
  events_of (trace (start (emit readme_events "*" (Num 1)) 0))
  = [ MiddlewareCalled 0 "*" (Num 1);
      MiddlewareNext 0;
      HandlerCalled Exact "*" 0 (Num 1) "*";
      Joined Exact "*" (Fulfilled (Arr [outcome_marker (Fulfilled Undefined)]));
      HandlerCalled Wildcard "*" 0 (Num 1) "*";
      Joined Wildcard "*" (Fulfilled (Arr [outcome_marker (Fulfilled Undefined)]));
      Settled (Fulfilled Undefined) ] /\
  times_called "*" 0 (trace (start (emit readme_events "*" (Num 1)) 0)) = 2.
Proof. repeat split; reflexivity. Qed.

(** ** Broadcast mode does not see how a handler settles *)















(** An awaited phase in broadcast mode: it goes on when the last handler
    has settled, and stays suspended when one never does. *)
Lemma broadcast_phase_outcome this ph key eventName payload s hs :
  get (handlers this) key = Listeners hs ->
  first_raise payload eventName hs = None ->
  match settlements (now s) (map (promised (now s) payload eventName) hs) with
  | Some (t, _) =>
      exists s',
        listeners_phase this ph key eventName payload false s = Returns tt s' /\
        now s' = Nat.max (now s) t
  | None =>
      exists s',
        listeners_phase this ph key eventName payload false s = Suspended s'
  end.
Proof.
  intros G F.
  assert (exists s1,
            now s1 = now s /\
            listeners_phase this ph key eventName payload false s
            = (v <- await_join ph key
                      (Promise_allSettled (now s)
                         (map (promised (now s) payload eventName) hs)) ;;
               results_push v) s1) as [s1 [N ->]].
  { unfold listeners_phase. rewrite G.
    destruct (map_handlers_spec hs ph key 0 payload eventName s F)
      as [s1 [E [_ [N _]]]].
    exists s1. split; [exact N|].
    unfold bind at 1. rewrite E. unfold bind at 1. rewrite join_eq.
    unfold the_join. now rewrite N. }
  unfold Promise_allSettled.
  destruct (settlements (now s) (map (promised (now s) payload eventName) hs))
    as [[t ms]|].
  - unfold bind, await_join, await, results_push. simpl.
    eexists. split; [reflexivity|]. simpl. now rewrite N.
  - unfold bind, await_join, await. simpl. eexists. reflexivity.
Qed.







(** ** Broadcast: [emit] and [group] *)

Lemma promise_fulfilled (body : Async Any) t0 t v :
  promise (start body t0) = SettlesAt t (Fulfilled v) ->
  exists s, body (initial t0) = Returns v s.
Proof.
  unfold start. destruct (body (initial t0)) as [v1 s|e1 s|s]; simpl;
    intros H; inversion H; subst. eauto.
Qed.













(** ** Registration and the exact-match phase *)





Lemma new_TypedEvents_inr schemas this :
  new_TypedEvents schemas = inr this ->
  register_all schemas [] = inr (handlers this) /\ middleware this = [].
Proof.
  unfold new_TypedEvents. fold (register_all schemas []).
  destruct (register_all schemas []) as [e|r]; [discriminate|].
  intros H. inversion H; subst. auto.
Qed.


Lemma triggered_matches this eventName ns :
  In ns (triggered this eventName) -> namespace_filter eventName ns = true.
Proof. unfold triggered. rewrite filter_In. tauto. Qed.


(** ** The middleware chain *)

Lemma run_middleware_log eventName payload mws : forall i s,
  waiting s = [] ->
  log (state_of (run_middleware mws i eventName payload s))
  = log s ++ middleware_log mws i (now s) eventName payload.
Proof.
  induction mws as [|mw mws IH]; intros i s W; simpl.
  - now rewrite app_nil_r.
  - unfold bind at 1. simpl. unfold bind at 1. simpl.
    unfold bind at 1, new_Promise, await.
    set (s1 := record (now s) (MiddlewareCalled i eventName payload) s).
    assert (waiting s1 = []) as W1 by exact W.
    destruct (mw eventName payload) as [d| |e]; simpl.
    + rewrite (drain_idle _ _ W1).
      unfold bind at 1. simpl.
      rewrite IH by exact W. simpl.
      replace (Nat.max (now s) (now s + d)) with (now s + d) by lia.
      now rewrite <- !app_assoc.
    + now rewrite (drain_all_idle _ W1).
    + now rewrite (drain_idle _ _ W1).
Qed.










(** [processEvent] returns only when every middleware called [next]. *)
Lemma processEvent_returns_continued this eventName payload c s v s' :
  processEvent this eventName payload c s = Returns v s' ->
  forallb (continues eventName payload) (middleware this) = true.
Proof.
  intros H.
  destruct (forallb (continues eventName payload) (middleware this)) eqn:Hmw;
    [reflexivity|].
  exfalso. unfold processEvent, bind at 1 in H.
  pose proof (run_middleware_blocks _ _ _ Hmw 0 s) as B.
  destruct (run_middleware (middleware this) 0 eventName payload s)
    as [[] s1|e s1|s1]; try discriminate.
  exact (B s1 eq_refl).
Qed.






(** ** The namespace phase is not awaited *)

(** C1 at a failing input: the handler of ['user.*'] is called by
    [call('user.created', alice)] and rejects; the promise of [call] is
    fulfilled with the value of the exact-match handler all the same.  The
    rejection ends the [async] callback of [forEach], which nobody awaits. *)
Theorem C1_namespace_rejection_is_not_propagated :
  new_TypedEvents rejecting_namespace_schemas = inr rejecting_namespace_events /\
  trace (start (call rejecting_namespace_events "user.created" Readme.alice) 0)
  = [ (0, HandlerCalled Exact "user.created" 0 Readme.alice "user.created");
      (0, Joined Exact "user.created" (Fulfilled (Arr [created_alice])));
      (0, HandlerCalled Namespace "user.*" 0 Readme.alice "user.created");
      (0, Settled (Fulfilled (Arr [created_alice])));
      (0, Joined Namespace "user.*" (Rejected (Str "boom"))) ] /\
  promise (start (call rejecting_namespace_events "user.created" Readme.alice) 0)
  = SettlesAt 0 (Fulfilled (Arr [created_alice])).
Proof. repeat split; reflexivity. Qed.

(** C2 at a failing input: the dispatcher of the README,
    [emit('user.created', alice)].  The wildcard handler is called
    (position 5) before the join of the namespace phase is over
    (position 6): [forEach] does not wait for its [async] callback.  With a
    namespace handler that answers late, the dispatch is even over before
    the namespace join. *)
Theorem C2_wildcard_starts_before_namespace_join :
  events_of (trace (start (emit readme_events "user.created" Readme.alice) 0))
  = [ MiddlewareCalled 0 "user.created" Readme.alice;
      MiddlewareNext 0;
      HandlerCalled Exact "user.created" 0 Readme.alice "user.created";
      Joined Exact "user.created"
        (Fulfilled (Arr [outcome_marker (Fulfilled created_alice)]));
      HandlerCalled Namespace "user.*" 0 Readme.alice "user.created";
      HandlerCalled Wildcard "*" 0 Readme.alice "user.created";
      Joined Namespace "user.*"
        (Fulfilled (Arr [outcome_marker (Fulfilled Undefined)]));
      Joined Wildcard "*"
        (Fulfilled (Arr [outcome_marker (Fulfilled Undefined)]));
      Settled (Fulfilled Undefined) ] /\
  trace (start (call slow_namespace_events "user.created" (Num 1)) 0)
  = [ (0, HandlerCalled Exact "user.created" 0 (Num 1) "user.created");
      (0, Joined Exact "user.created" (Fulfilled (Arr [Str "exact"])));
      (0, HandlerCalled Namespace "user.*" 0 (Num 1) "user.created");
      (0, HandlerCalled Wildcard "*" 0 (Num 1) "user.created");
      (0, Joined Wildcard "*" (Fulfilled (Arr [Str "wildcard"])));
      (0, Settled (Fulfilled (Arr [Str "exact"; Str "wildcard"])));
      (5, Joined Namespace "user.*" (Fulfilled (Arr [Str "namespace"]))) ].
Proof. split; reflexivity. Qed.

(** C3 at a failing input: no handler rejects, the handler of ['user.*']
    answers after five instants.  [call('user.created', 1)] is fulfilled at
    instant 0 with the array [results] holding the exact-match and the
    wildcard values; the namespace value is pushed into that array at
    instant 5, after the wildcard value.  Neither content is the sequence
    exact, namespace, wildcard. *)
Theorem C3_namespace_results_come_late :
  new_TypedEvents slow_namespace_schemas = inr slow_namespace_events /\
  phase_passes slow_namespace_events "user.created" (Num 1) "user.created" true = true /\
  phase_passes slow_namespace_events "user.*" (Num 1) "user.created" true = true /\
  phase_passes slow_namespace_events "*" (Num 1) "user.created" true = true /\
  triggered slow_namespace_events "user.created" = ["user.*"] /\
  promise (start (call slow_namespace_events "user.created" (Num 1)) 0)
  = SettlesAt 0 (Fulfilled (Arr [Str "exact"; Str "wildcard"])) /\
  final_results (start (call slow_namespace_events "user.created" (Num 1)) 0)
  = [Str "exact"; Str "wildcard"; Str "namespace"].
Proof. repeat split; reflexivity. Qed.

(** ** The namespace filter *)

(** C9 at a failing input.  The key ['a.*.b.*'] ends with the marker and,
    without it, is the prefix ['a.*.b'] of the event name ['a.*.b.c']; the
    dispatch of ['a.*.b.c'] does not trigger it.  It is triggered by
    ['a.b.*.c'], of which ['a.*.b'] is no prefix: [replace('.*', '')]
    removes the first ['.*'] of the key, not the last. *)
Theorem C9_replace_removes_the_first_marker :
  new_TypedEvents nested_schemas = inr nested_events /\
  JsString.replace ".*" "" "a.*.b.*" = "a.b.*" /\
  JsString.strip_marker "a.*.b.*" = "a.*.b" /\
  namespace_filter_spec "a.*.b.c" "a.*.b.*" = true /\
  triggered nested_events "a.*.b.c" = [] /\
  calls_in (trace (start (emit nested_events "a.*.b.c" (Num 1)) 0))
  = [ HandlerCalled Exact "a.*.b.c" 0 (Num 1) "a.*.b.c" ] /\
  namespace_filter_spec "a.b.*.c" "a.*.b.*" = false /\
  triggered nested_events "a.b.*.c" = ["a.*.b.*"] /\
  calls_in (trace (start (emit nested_events "a.b.*.c" (Num 1)) 0))
  = [ HandlerCalled Exact "a.b.*.c" 0 (Num 1) "a.b.*.c";
      HandlerCalled Namespace "a.*.b.*" 0 (Num 1) "a.b.*.c" ].
Proof. repeat split; reflexivity. Qed.

(** C10 at a failing input.  The key ['a.*.b.*'] ends in ['.*']; the
    dispatch of the event named ['a.*.b.*'] calls its handler once, in the
    exact-match phase: the namespace filter compares with ['a.b.*'], which
    is no prefix of the key.  For ['user.*'] of the README the handler is
    called twice. *)
Theorem C10_self_match_fails_for_inner_marker :
  own (handlers nested_events) "a.*.b.*" = Some [Readme.resolves (Str "namespace")] /\
  JsString.endsWith ".*" "a.*.b.*" = true /\
  namespace_filter "a.*.b.*" "a.*.b.*" = false /\
  calls_in (trace (start (emit nested_events "a.*.b.*" (Num 1)) 0))
  = [ HandlerCalled Exact "a.*.b.*" 0 (Num 1) "a.*.b.*" ] /\
  times_called "a.*.b.*" 0 (trace (start (emit nested_events "a.*.b.*" (Num 1)) 0)) = 1 /\
  calls_in (trace (start (emit readme_events "user.*" (Num 1)) 0))
  = [ HandlerCalled Exact "user.*" 0 (Num 1) "user.*";
      HandlerCalled Namespace "user.*" 0 (Num 1) "user.*";
      HandlerCalled Wildcard "*" 0 (Num 1) "user.*" ] /\
  times_called "user.*" 0 (trace (start (emit readme_events "user.*" (Num 1)) 0)) = 2.
Proof. repeat split; reflexivity. Qed.

(** ** The whole log of a dispatch *)

Lemma run_middleware_idle eventName payload mws : forall i s s',
  waiting s = [] ->
  run_middleware mws i eventName payload s = Returns tt s' ->
  waiting s' = [] /\ results s' = results s.
Proof.
  induction mws as [|mw mws IH]; intros i s s' W H; simpl in H.
  - inversion H; subst. auto.
  - unfold bind at 1 in H. simpl in H. unfold bind at 1 in H. simpl in H.
    unfold bind at 1, new_Promise, await in H.
    set (s1 := record (now s) (MiddlewareCalled i eventName payload) s) in *.
    assert (waiting s1 = []) as W1 by exact W.
    destruct (mw eventName payload) as [d| |e]; simpl in H; try discriminate.
    rewrite (drain_idle _ _ W1) in H. unfold bind at 1 in H. simpl in H.
    apply IH in H; [exact H|exact W].
Qed.

Lemma all_fulfils_values t payload eventName hs :
  forallb (lets_pass true payload eventName) hs = true ->
  exists t',
    t <= t' /\
    Promise_all t (map (promised t payload eventName) hs)
    = SettlesAt t' (Fulfilled (Arr (fulfilled_values payload eventName hs))).
Proof.
  intros H. unfold Promise_all.
  rewrite first_rejection_none by (rewrite lets_pass_invoke; exact H).
  assert (exists t', t <= t' /\
            fulfilments t (map (promised t payload eventName) hs)
            = Some (t', fulfilled_values payload eventName hs)) as [t' [Hle E]].
  { induction hs as [|h hs IH]; simpl in *.
    - exists t. auto.
    - apply andb_true_iff in H as [Hh H]. destruct (IH H) as [t' [Hle E]].
      unfold promised at 1, invoke. unfold lets_pass in Hh.
      destruct (h payload eventName) as [d [v|e]| |e]; try discriminate.
      rewrite E. exists (Nat.max (t + d) t'). split; [lia|reflexivity]. }
  rewrite E. eauto.
Qed.

(** An awaited phase that lets the dispatch go on, started with nothing
    waiting: its calls, then the end of its join; in call mode the values of
    its handlers are appended to [results]. *)
Lemma listeners_phase_idle this ph key eventName payload c s :
  waiting s = [] ->
  phase_passes this key payload eventName c = true ->
  exists s' joins,
    listeners_phase this ph key eventName payload c s = Returns tt s' /\
    events_of (log s')
    = events_of (log s) ++ phase_calls this ph key payload eventName ++ joins /\
    (forall e, In e joins -> exists r, e = Joined ph key r) /\
    waiting s' = [] /\
    (c = true ->
     results s' = results s ++ fulfilled_values payload eventName
                                 (listeners (handlers this) key)).
Proof.
  intros W H. unfold listeners_phase, phase_passes, phase_calls, listeners, get in *.
  destruct (own (handlers this) key) as [hs|].
  - destruct (lets_pass_returns _ _ _ _ H) as [F ->].
    destruct (map_handlers_spec hs ph key 0 payload eventName s F)
      as [s1 [E [L [N [R W1]]]]].
    unfold bind at 1. rewrite E. unfold bind at 1. rewrite join_eq.
    assert (exists t vs,
               the_join c (now s1) (map (promised (now s) payload eventName) hs)
               = SettlesAt t (Fulfilled (Arr vs)) /\
               (c = true -> vs = fulfilled_values payload eventName hs))
      as [t [vs [J V]]].
    { destruct c.
      - rewrite N. destruct (all_fulfils_values (now s) payload eventName hs H)
          as [t [_ J]].
        exists t, (fulfilled_values payload eventName hs). auto.
      - rewrite <- (lets_pass_invoke false (now s)) in H.
        destruct (join_passes false (now s1) _ H) as [t [vs J]].
        exists t, vs. split; [exact J|discriminate]. }
    unfold bind, await_join, await. rewrite J. simpl.
    rewrite W in W1. rewrite (drain_idle _ _ W1).
    unfold results_push. simpl.
    exists (push_results vs
              (record (Nat.max (now s1) t) (Joined ph key (Fulfilled (Arr vs)))
                 (set_now (Nat.max (now s1) t) s1))),
           [Joined ph key (Fulfilled (Arr vs))].
    split; [reflexivity|]. simpl. rewrite L. repeat split.
    + now rewrite !events_of_app, events_of_stamped, <- app_assoc.
    + intros e [<-|[]]. eauto.
    + exact W1.
    + intros Hc. rewrite (V Hc), R. reflexivity.
  - destruct (inherited key); [discriminate|].
    exists s, []. simpl. rewrite !app_nil_r. repeat split; auto.
    intros e [].
Qed.

(** An awaited phase, however it ends: its calls, then ends of joins. *)
Lemma listeners_phase_events this ph key eventName payload c s :
  exists endings,
    events_of (log (state_of (listeners_phase this ph key eventName payload c s)))
    = events_of (log s) ++ phase_calls this ph key payload eventName ++ endings /\
    forallb (fun e => is_namespace_join e || is_join_of ph e) endings = true.
Proof.
  unfold listeners_phase, phase_calls.
  destruct (get (handlers this) key) as [|hs|];
    try (exists []; simpl; now rewrite !app_nil_r).
  destruct (map_handlers_outcome hs ph key 0 payload eventName s)
    as [s1 [E [L [N [R W1]]]]].
  unfold bind at 1. rewrite E.
  destruct (first_raise payload eventName hs) as [e0|].
  { exists []. split; [|reflexivity]. simpl.
    now rewrite L, !events_of_app, events_of_stamped, app_nil_r. }
  assert (adds (fun e => is_namespace_join e || is_join_of ph e)
               (p <- join c (map (promised (now s) payload eventName) hs) ;;
                v <- await_join ph key p ;; results_push v)) as A.
  { apply adds_bind; [apply adds_join|intros p].
    apply adds_bind; [|intros v; apply adds_results_push].
    apply adds_await_join.
    - intros e He. now rewrite He.
    - intros r. simpl. now destruct ph. }
  destruct (A s1) as [added [EA FA]].
  exists (events_of added). split; [|exact FA].
  now rewrite EA, L, !events_of_app, events_of_stamped, <- app_assoc.
Qed.

Lemma bind_get_results_state (m : Async unit) (f : list Any -> Any) s :
  state_of ((m ;; res <- get_results ;; ret (f res)) s) = state_of (m s).
Proof.
  unfold bind. destruct (m s) as [[] s'|e s'|s']; reflexivity.
Qed.

(** The log of a dispatch that gets through the middleware and through the
    exact-match phase (its handlers return promises that let the join
    fulfil): the middleware, the calls of the exact-match handlers, the end
    of their join, the calls of the handlers of the triggered namespace keys
    (of each key, up to the first call that throws), the calls of the
    wildcard handlers (up to the first call that throws), and only then the
    ends of the namespace and wildcard joins and the settlement. *)
Theorem log_of_a_dispatch this eventName payload c t0 :
  forallb (continues eventName payload) (middleware this) = true ->
  phase_passes this eventName payload eventName c = true ->
  exists joins endings,
    events_of (trace (start (processEvent this eventName payload c) t0))
    = events_of (middleware_log (middleware this) 0 t0 eventName payload) ++
      phase_calls this Exact eventName payload eventName ++
      joins ++
      namespace_calls this payload eventName (triggered this eventName) ++
      phase_calls this Wildcard "*" payload eventName ++
      endings /\
    (forall e, In e joins -> exists r, e = Joined Exact eventName r) /\
    forallb is_ending endings = true.
Proof.
  intros Hmw Hex. unfold triggered.
  destruct (trace_start (processEvent this eventName payload c) t0)
    as [epilogue [E F]].
  destruct (run_middleware_returns _ _ _ Hmw 0 (initial t0)) as [s1 E1].
  pose proof (run_middleware_log eventName payload (middleware this) 0
                (initial t0) eq_refl) as L1.
  rewrite E1 in L1. simpl in L1.
  destruct (run_middleware_idle eventName payload (middleware this) 0
              (initial t0) s1 eq_refl E1) as [W1 _].
  destruct (listeners_phase_idle this Exact eventName eventName payload c s1 W1 Hex)
    as [s2 [joins [E2 [L2 [J2 [W2 _]]]]]].
  destruct (forEach_namespace this eventName payload c
              (filter (namespace_filter eventName) (Object_keys (handlers this))) s2)
    as [s3 [E3 [_ [_ [_ L3]]]]].
  destruct (listeners_phase_events this Wildcard "*" eventName payload c s3)
    as [endings [L4 F4]].
  unfold processEvent in E.
  rewrite (@bind_returned _ _ _ _ _ _ _ E1) in E.
  rewrite (@bind_returned _ _ _ _ _ _ _ E2) in E.
  rewrite (@bind_returned _ _ _ _ _ _ _ E3) in E.
  rewrite (bind_get_results_state _ (fun res => if c then Arr res else Undefined)) in E.
  exists joins, (endings ++ events_of epilogue). split; [|split].
  - unfold processEvent. rewrite E, events_of_app, L4, L3, L2, L1.
    now rewrite <- !app_assoc.
  - exact J2.
  - rewrite forallb_app. apply andb_true_iff. split.
    + rewrite forallb_forall in *. intros e He. specialize (F4 e He).
      destruct e as [| | |[] ? ?|]; simpl in *; auto; discriminate.
    + rewrite forallb_forall in *. intros e He. specialize (F e He).
      destruct e as [| | |[] ? ?|]; simpl in *; auto; discriminate.
Qed.

(** ** Call mode: what the awaited phases give *)









(** ** Keys whose only marker is the trailing one *)


Lemma substring_app p s :
  String.substring 0 (String.length p) (p ++ s)%string = p.
Proof.
  induction p as [|c p IH]; simpl; [now destruct s|]. now rewrite IH.
Qed.

Lemma length_app_marker p : String.length (p ++ ".*")%string = String.length p + 2.
Proof. induction p as [|c p IH]; simpl; [reflexivity|]. now rewrite IH. Qed.

Lemma strip_marker_app p : JsString.strip_marker (p ++ ".*")%string = p.
Proof.
  unfold JsString.strip_marker. rewrite length_app_marker.
  replace (String.length p + 2 - 2) with (String.length p) by lia.
  apply substring_app.
Qed.

Lemma endsWith_app suffix p : JsString.endsWith suffix (p ++ suffix)%string = true.
Proof.
  induction p as [|c p IH].
  - change (EmptyString ++ suffix)%string with suffix.
    destruct suffix; cbn [JsString.endsWith]; now rewrite String.eqb_refl.
  - cbn [append JsString.endsWith]. rewrite IH. apply orb_true_r.
Qed.

Lemma endsWith_inv suffix s :
  JsString.endsWith suffix s = true -> exists p, s = (p ++ suffix)%string.
Proof.
  induction s as [|c s IH]; cbn [JsString.endsWith]; intros H.
  - rewrite orb_false_r in H. apply String.eqb_eq in H. subst. now exists EmptyString.
  - apply orb_true_iff in H as [H|H].
    + apply String.eqb_eq in H. rewrite <- H. now exists EmptyString.
    + destruct (IH H) as [p ->]. now exists (String c p).
Qed.

(** [replace('.*', '')] strips the trailing marker when no ['*'] comes
    before it. *)
Lemma replace_marker_app p :
  no_star p = true -> JsString.replace ".*" "" (p ++ ".*")%string = p.
Proof.
  induction p as [|c p IH]; intros H; [reflexivity|].
  simpl in H. apply andb_true_iff in H as [Hc Hp].
  cbn [append JsString.replace String.prefix].
  destruct (ascii_dec "." c) as [<-|Hne].
  - destruct p as [|c' p'].
    + reflexivity.
    + simpl in Hp. apply andb_true_iff in Hp as [Hc' Hp'].
      cbn [append String.prefix].
      destruct (ascii_dec "*" c') as [<-|Hne'].
      * discriminate.
      * change (String c' (p' ++ ".*"))%string with (String c' p' ++ ".*")%string.
        rewrite IH; [reflexivity|]. simpl. now rewrite Hc', Hp'.
  - now rewrite (IH Hp).
Qed.

Lemma namespace_filter_on_plain_key eventName registeredEvent :
  no_star (JsString.strip_marker registeredEvent) = true ->
  namespace_filter eventName registeredEvent
  = namespace_filter_spec eventName registeredEvent.
Proof.
  intros H. unfold namespace_filter, namespace_filter_spec.
  destruct (JsString.endsWith ".*" registeredEvent) eqn:E; [|reflexivity].
  apply endsWith_inv in E as [p ->]. rewrite strip_marker_app in *.
  now rewrite replace_marker_app.
Qed.

(** On a key that holds no ['*'] before its marker, the filter of the code
    is the filter of the spec: the key is triggered exactly when it ends
    with the marker and, without it, is a prefix of the event name. *)
Theorem namespace_filter_agrees this eventName registeredEvent :
  no_star (JsString.strip_marker registeredEvent) = true ->
  In registeredEvent (Object_keys (handlers this)) ->
  (In registeredEvent (triggered this eventName) <->
   JsString.endsWith ".*" registeredEvent = true /\
   JsString.startsWith (JsString.strip_marker registeredEvent) eventName = true).
Proof.
  intros H Hin. unfold triggered. rewrite filter_In.
  rewrite (namespace_filter_on_plain_key eventName registeredEvent H).
  unfold namespace_filter_spec. rewrite andb_true_iff. tauto.
Qed.

(** The key ['user.*'] and the event name ['user.created']. *)
Lemma namespace_filter_agrees_witness :
  no_star (JsString.strip_marker "user.*") = true /\
  In "user.*" (Object_keys (handlers readme_events)) /\
  In "user.*" (triggered readme_events "user.created") /\
  ~ In "user.*" (triggered readme_events "order.created").
Proof.
  assert (In "user.*" (Object_keys (handlers readme_events))) as Hin.
  { simpl. auto. }
  split; [reflexivity|]. split; [exact Hin|]. split.
  - apply (namespace_filter_agrees readme_events "user.created" "user.*" eq_refl Hin).
    split; reflexivity.
  - intros H.
    apply (namespace_filter_agrees readme_events "order.created" "user.*" eq_refl Hin)
      in H.
    destruct H as [_ H]. discriminate.
Defined.

(** *** The order of [Object.keys] and the namespace filter *)








(** *** A namespace key dispatched under its own name *)









(** ** Registration and the number of calls of a handler *)







(** ** More on the whole dispatch *)


(** The log of [emit('user.created', alice)] on the dispatcher of the
    README has that shape. *)
Lemma log_of_a_dispatch_witness :
  forallb (continues "user.created" Readme.alice) (middleware readme_events) = true /\
  phase_passes readme_events "user.created" Readme.alice "user.created" false = true /\
  exists joins endings,
    events_of (trace (start (processEvent readme_events "user.created" Readme.alice false) 0))
    = [ MiddlewareCalled 0 "user.created" Readme.alice; MiddlewareNext 0 ] ++
      [ HandlerCalled Exact "user.created" 0 Readme.alice "user.created" ] ++
      joins ++
      [ HandlerCalled Namespace "user.*" 0 Readme.alice "user.created" ] ++
      [ HandlerCalled Wildcard "*" 0 Readme.alice "user.created" ] ++
      endings /\
    forallb is_ending endings = true.
Proof.
  split; [reflexivity|]. split; [reflexivity|].
  destruct (log_of_a_dispatch readme_events "user.created" Readme.alice false 0
              eq_refl eq_refl) as [joins [endings [E [_ F]]]].
  exists joins, endings. split; [exact E|exact F].
Defined.

(** ** Names of [Object.prototype] *)

Lemma register_error entry r e :
  register entry r = inl e -> e = push_is_not_a_function.
Proof.
  destruct entry as [event h]. unfold register.
  destruct (get _ event); intros H; inversion H; reflexivity.
Qed.

Lemma register_prototype_name event h r :
  prototype_free r -> inherited event = true ->
  register (event, h) r = inl push_is_not_a_function.
Proof.
  intros F I. unfold register, get. rewrite (F event I), I. simpl.
  rewrite ?(F event I), ?I. reflexivity.
Qed.

Lemma register_prototype_free event h r r' :
  prototype_free r -> register (event, h) r = inr r' -> prototype_free r'.
Proof.
  intros F H k I.
  destruct (String.eqb_spec event k) as [->|Hne].
  - rewrite (register_prototype_name k h r F I) in H. discriminate.
  - apply String.eqb_neq in Hne.
    unfold register, get in H.
    destruct (own r event) as [hs|] eqn:O.
    + rewrite O in H. inversion H; subst. rewrite own_push, Hne. now apply F.
    + destruct (inherited event) eqn:Ie.
      * rewrite ?O, ?Ie in H. discriminate.
      * unfold set_empty in H. rewrite own_app, O in H. simpl in H.
        rewrite String.eqb_refl in H. inversion H; subst.
        rewrite own_push, Hne, own_app, (F k I). simpl. now rewrite Hne.
Qed.

Lemma register_entries_prototype_name entries : forall r event h,
  prototype_free r ->
  In (event, h) entries -> inherited event = true ->
  forEach_throwing register entries r = inl push_is_not_a_function.
Proof.
  induction entries as [|[ev' h'] entries IH]; intros r event h F Hin I;
    [destruct Hin|]. cbn [forEach_throwing].
  destruct (register (ev', h') r) as [e|r1] eqn:E.
  - now rewrite (register_error _ _ _ E).
  - destruct Hin as [Heq|Hin].
    + inversion Heq; subst.
      rewrite (register_prototype_name event h r F I) in E. discriminate.
    + eapply IH; eauto. eapply register_prototype_free; eauto.
Qed.

Lemma register_entries_error entries : forall r e,
  forEach_throwing register entries r = inl e -> e = push_is_not_a_function.
Proof.
  induction entries as [|entry entries IH]; cbn [forEach_throwing]; intros r e H;
    [discriminate|].
  destruct (register entry r) as [e1|r1] eqn:E.
  - inversion H; subst. eapply register_error; eauto.
  - eapply IH; eauto.
Qed.

Lemma register_entries_prototype_free entries : forall r r',
  prototype_free r -> forEach_throwing register entries r = inr r' ->
  prototype_free r'.
Proof.
  induction entries as [|[event h] entries IH]; cbn [forEach_throwing]; intros r r' F H.
  - inversion H; subst. exact F.
  - destruct (register (event, h) r) as [e|r1] eqn:E; [discriminate|].
    eapply IH; [|exact H]. eapply register_prototype_free; eauto.
Qed.

Lemma register_all_prototype_name schemas : forall r event h,
  prototype_free r ->
  In (event, h) (List.concat schemas) -> inherited event = true ->
  register_all schemas r = inl push_is_not_a_function.
Proof.
  unfold register_all.
  induction schemas as [|schema schemas IH]; intros r event h F Hin I;
    [destruct Hin|]. cbn [forEach_throwing].
  simpl in Hin. apply in_app_or in Hin.
  destruct (forEach_throwing register schema r) as [e|r1] eqn:E.
  - now rewrite (register_entries_error _ _ _ E).
  - destruct Hin as [Hin|Hin].
    + rewrite (register_entries_prototype_name schema r event h F Hin I) in E.
      discriminate.
    + eapply IH; eauto. eapply register_entries_prototype_free; eauto.
Qed.




(** * Further properties of the dispatcher *)

(** ** When a dispatch completes *)


Lemma processEvent_returns_passes this eventName payload c s v s' :
  processEvent this eventName payload c s = Returns v s' ->
  forallb (continues eventName payload) (middleware this) = true /\
  phase_passes this eventName payload eventName c = true /\
  phase_passes this "*" payload eventName c = true.
Proof.
  intros H. split; [eapply processEvent_returns_continued; exact H|].
  unfold processEvent in H.
  apply bind_Returns in H as [? [s1 [_ H]]].
  apply bind_Returns in H as [[] [s2 [E2 H]]].
  apply bind_Returns in H as [? [s3 [_ H]]].
  apply bind_Returns in H as [[] [s4 [E4 _]]].
  split.
  - destruct (phase_passes this eventName payload eventName c) eqn:P; [reflexivity|].
    exfalso.
    exact (listeners_phase_blocks this Exact eventName eventName payload c s1 P s2 E2).
  - destruct (phase_passes this "*" payload eventName c) eqn:P; [reflexivity|].
    exfalso.
    exact (listeners_phase_blocks this Wildcard "*" eventName payload c s3 P s4 E4).
Qed.



Lemma hangs_blocks this key payload eventName c :
  hangs_in this key payload eventName ->
  phase_passes this key payload eventName c = false.
Proof.
  intros [hs [h [G [Hin Hh]]]]. unfold phase_passes. rewrite G.
  destruct (forallb (lets_pass c payload eventName) hs) eqn:F; [|reflexivity].
  rewrite forallb_forall in F. specialize (F h Hin).
  unfold lets_pass in F. rewrite Hh in F. discriminate.
Qed.

(** Nothing bounds the time a handler takes.  When the middleware call
    [next], the event name is not read from [Object.prototype], no handler
    of the event name or of ['*'] throws when it is called, and a handler
    of the event name, or of ['*'], answers with a promise that never
    settles, the promise of [emit] never settles either (1); when it is a
    handler of the event name, the handlers of the namespace keys and of
    ['*'] are never called (2). *)
Theorem emit_waits_for_ever_on_a_pending_handler this eventName payload t0 :
  forallb (continues eventName payload) (middleware this) = true ->
  get (handlers this) eventName <> Inherited ->
  (forall e, ~ raises_in this eventName payload eventName e) ->
  (forall e, ~ raises_in this "*" payload eventName e) ->
  hangs_in this eventName payload eventName \/ hangs_in this "*" payload eventName ->
  promise (start (emit this eventName payload) t0) = NeverSettles /\
  (hangs_in this eventName payload eventName ->
   calls_in (trace (start (emit this eventName payload) t0))
   = phase_calls this Exact eventName payload eventName).
Proof.
  intros Hmw Hown Hexact Hstar Hh. split.
  - rewrite start_emit.
    destruct (promise (start (processEvent this eventName payload false) t0))
      as [t [v|e]|] eqn:P; [| |reflexivity]; exfalso.
    + apply promise_fulfilled in P as [s P].
      apply processEvent_returns_passes in P as [_ [Hex Hw]].
      destruct Hh as [Hh|Hh]; apply (hangs_blocks _ _ _ _ false) in Hh; congruence.
    + apply promise_rejected in P as [s P].
      apply processEvent_broadcast_throws in P as [[mw [Hin Hthrows]]|[I|[R|R]]].
      * rewrite forallb_forall in Hmw. specialize (Hmw mw Hin).
        unfold continues in Hmw. rewrite Hthrows in Hmw. discriminate.
      * exact (Hown I).
      * exact (Hexact e R).
      * exact (Hstar e R).
  - intros Hex. rewrite start_emit, calls_of_dispatch. unfold expected_calls.
    rewrite Hmw, (hangs_blocks _ _ _ _ false Hex). apply app_nil_r.
Qed.

(** The exact-match handler never settles: [emit('user.created', alice)]
    calls it and nothing else, and stays pending. *)
Lemma emit_waits_for_ever_on_a_pending_handler_witness :
  forallb (continues "user.created" Readme.alice) (middleware pending_events) = true /\
  hangs_in pending_events "user.created" Readme.alice "user.created" /\
  promise (start (emit pending_events "user.created" Readme.alice) 0) = NeverSettles /\
  calls_in (trace (start (emit pending_events "user.created" Readme.alice) 0))
  = [ HandlerCalled Exact "user.created" 0 Readme.alice "user.created" ].
Proof.
  assert (hangs_in pending_events "user.created" Readme.alice "user.created") as Hh.
  { exists [pending], pending. repeat split. now left. }
  destruct (emit_waits_for_ever_on_a_pending_handler pending_events "user.created"
              Readme.alice 0 eq_refl) as [Hp Hc].
  - discriminate.
  - intros e [hs [h [G [Hin Hr]]]]. inversion G; subst hs.
    destruct Hin as [<-|[]]. discriminate.
  - intros e [hs [h [G [Hin Hr]]]]. inversion G; subst hs.
    destruct Hin as [<-|[]]. discriminate.
  - left. exact Hh.
  - split; [reflexivity|]. split; [exact Hh|]. split; [exact Hp|].
    rewrite (Hc Hh). reflexivity.
Defined.

(** ** What [call] rejects with *)




(** ** The two modes call the same handlers, as far as [call] goes *)

Lemma lets_pass_broadcast payload eventName h :
  lets_pass true payload eventName h = true ->
  lets_pass false payload eventName h = true.
Proof. unfold lets_pass. now destruct (h payload eventName) as [d [v|e]| |e]. Qed.

Lemma phase_passes_broadcast this key payload eventName :
  phase_passes this key payload eventName true = true ->
  phase_passes this key payload eventName false = true.
Proof.
  unfold phase_passes. destruct (get (handlers this) key) as [|hs|]; auto.
  rewrite !forallb_forall. intros H h Hin.
  apply lets_pass_broadcast. now apply H.
Qed.

Lemma phase_passes_without_rejection this key payload eventName :
  (forall e, ~ rejects_in this key payload eventName e) ->
  phase_passes this key payload eventName true
  = phase_passes this key payload eventName false.
Proof.
  intros H. unfold phase_passes.
  destruct (get (handlers this) key) as [|hs|] eqn:G; try reflexivity.
  assert (forall h, In h hs ->
            lets_pass true payload eventName h = lets_pass false payload eventName h)
    as Hsame.
  { intros h Hin. unfold lets_pass.
    destruct (h payload eventName) as [d [v|e]| |e] eqn:Hh; try reflexivity.
    exfalso. apply (H e). exists hs, h, d. auto. }
  clear G H. induction hs as [|h hs IH]; simpl; [reflexivity|].
  rewrite (Hsame h) by now left.
  rewrite IH; [reflexivity|]. intros h' Hin. apply Hsame. now right.
Qed.

(** On one dispatcher, event name and payload, [call] calls a prefix of
    the handlers that [emit] calls, in the same order (1); the two call
    the same handlers when no handler of the event name rejects (2). *)
Theorem call_calls_a_prefix_of_emit this eventName payload t0 :
  (exists rest,
      calls_in (trace (start (emit this eventName payload) t0))
      = calls_in (trace (start (call this eventName payload) t0)) ++ rest) /\
  ((forall e, ~ rejects_in this eventName payload eventName e) ->
   calls_in (trace (start (emit this eventName payload) t0))
   = calls_in (trace (start (call this eventName payload) t0))).
Proof.
  rewrite start_emit. unfold call. rewrite !calls_of_dispatch.
  unfold expected_calls. split.
  - destruct (forallb (continues eventName payload) (middleware this));
      [|now exists []].
    destruct (phase_passes this eventName payload eventName true) eqn:P.
    + rewrite (phase_passes_broadcast _ _ _ _ P). exists []. now rewrite app_nil_r.
    + rewrite app_nil_r. eexists. reflexivity.
  - intros H. now rewrite (phase_passes_without_rejection _ _ _ _ H).
Qed.

(** On the dispatcher whose ['user.created'] handler rejects, [call]
    stops after the exact-match handler and [emit] goes on; on the
    dispatcher of the README they call the same handlers. *)
Lemma call_calls_a_prefix_of_emit_witness :
  calls_in (trace (start (call failing_events "user.created" (Num 7)) 0))
  = [ HandlerCalled Exact "user.created" 0 (Num 7) "user.created" ] /\
  calls_in (trace (start (emit failing_events "user.created" (Num 7)) 0))
  = [ HandlerCalled Exact "user.created" 0 (Num 7) "user.created";
      HandlerCalled Namespace "user.*" 0 (Num 7) "user.created";
      HandlerCalled Wildcard "*" 0 (Num 7) "user.created" ] /\
  (forall e, ~ rejects_in readme_events "user.created" Readme.alice "user.created" e) /\
  calls_in (trace (start (emit readme_events "user.created" Readme.alice) 0))
  = calls_in (trace (start (call readme_events "user.created" Readme.alice) 0)).
Proof.
  assert (forall e,
            ~ rejects_in readme_events "user.created" Readme.alice "user.created" e)
    as Hnone.
  { intros e [hs [h [d [G [Hin Hh]]]]]. inversion G; subst hs.
    destruct Hin as [<-|[]]. discriminate. }
  split; [reflexivity|]. split; [reflexivity|]. split; [exact Hnone|].
  apply (call_calls_a_prefix_of_emit readme_events "user.created" Readme.alice 0).
  exact Hnone.
Defined.

(** ** Handlers that the event does not concern *)

(** A dispatch never calls a handler registered under a key that is
    neither the event name, nor ['*'], nor a namespace key that the filter
    lets through. *)
Theorem unrelated_handlers_are_not_called this eventName payload c t0 key idx :
  key <> eventName ->
  key <> "*" ->
  namespace_filter eventName key = false ->
  times_called key idx (trace (start (processEvent this eventName payload c) t0)) = 0.
Proof.
  intros Hname Hstar Hns. unfold times_called.
  rewrite calls_of_in_calls, calls_of_dispatch. unfold expected_calls.
  destruct (forallb (continues eventName payload) (middleware this)); [|reflexivity].
  rewrite filter_app, calls_of_phase_other_key by congruence.
  destruct (phase_passes this eventName payload eventName c); [|reflexivity].
  rewrite filter_app, calls_of_namespace, calls_of_phase_other_key; [reflexivity| |].
  - congruence.
  - intros ns Hin E. subst ns. apply triggered_matches in Hin. congruence.
Qed.

(** [emit('user.created', alice)] on the dispatcher of the README calls
    neither the handler of ['user.updated'] nor that of ['order.created']. *)
Lemma unrelated_handlers_are_not_called_witness :
  own (handlers readme_events) "user.updated"
  = Some [Readme.resolves (Obj [("updated", Bool true)])] /\
  times_called "user.updated" 0
    (trace (start (processEvent readme_events "user.created" Readme.alice false) 0)) = 0 /\
  times_called "order.created" 0
    (trace (start (processEvent readme_events "user.created" Readme.alice false) 0)) = 0.
Proof.
  split; [reflexivity|]. split.
  - apply (unrelated_handlers_are_not_called readme_events "user.created"
             Readme.alice false 0 "user.updated" 0);
      [discriminate|discriminate|reflexivity].
  - apply (unrelated_handlers_are_not_called readme_events "user.created"
             Readme.alice false 0 "order.created" 0);
      [discriminate|discriminate|reflexivity].
Defined.

(** ** Middleware that do not let the dispatch go on *)






(** ** The instant at which a dispatch goes on *)

Lemma run_middleware_now eventName payload mws : forall i s,
  forallb (continues eventName payload) mws = true ->
  now (state_of (run_middleware mws i eventName payload s))
  = now s + middleware_delay eventName payload mws.
Proof.
  induction mws as [|mw mws IH]; intros i s H; simpl; [lia|].
  apply andb_true_iff in H as [H0 H]. unfold continues in H0.
  unfold bind at 1. simpl. unfold bind at 1. simpl.
  unfold bind at 1, new_Promise, await.
  destruct (mw eventName payload) as [d| |e0]; try discriminate. simpl.
  unfold bind at 1. simpl. rewrite IH by exact H. simpl. lia.
Qed.

(** ** An event that nobody listens to *)

(** A dispatch of an event name that is no key of the registry, that no
    namespace key matches, on a dispatcher without ['*'] handlers, is no
    error: once the middleware have called [next], [call] resolves to the
    empty array and [emit] to no value, and no handler is called. *)
Theorem dispatch_without_listeners this eventName payload t0 :
  forallb (continues eventName payload) (middleware this) = true ->
  get (handlers this) eventName = Absent ->
  triggered this eventName = [] ->
  get (handlers this) "*" = Absent ->
  promise (start (call this eventName payload) t0)
  = SettlesAt (t0 + middleware_delay eventName payload (middleware this))
              (Fulfilled (Arr [])) /\
  promise (start (emit this eventName payload) t0)
  = SettlesAt (t0 + middleware_delay eventName payload (middleware this))
              (Fulfilled Undefined) /\
  calls_in (trace (start (call this eventName payload) t0)) = [] /\
  calls_in (trace (start (emit this eventName payload) t0)) = [].
Proof.
  intros Hmw Hex Hns Hw.
  destruct (run_middleware_returns _ _ _ Hmw 0 (initial t0)) as [s1 E1].
  destruct (run_middleware_idle eventName payload (middleware this) 0
              (initial t0) s1 eq_refl E1) as [_ R1].
  assert (now s1 = t0 + middleware_delay eventName payload (middleware this)) as N1.
  { pose proof (run_middleware_now eventName payload (middleware this) 0
                  (initial t0) Hmw) as N.
    rewrite E1 in N. exact N. }
  assert (forall c,
            processEvent this eventName payload c (initial t0)
            = Returns (if c then Arr [] else Undefined) s1) as P.
  { intros c. unfold processEvent. rewrite (@bind_returned _ _ _ _ _ _ _ E1).
    unfold triggered in Hns. rewrite Hns.
    unfold listeners_phase. rewrite Hex, Hw.
    unfold bind, ret, get_results. simpl. now rewrite R1. }
  assert (calls_in (trace (start (processEvent this eventName payload true) t0)) = []
          /\ calls_in (trace (start (processEvent this eventName payload false) t0)) = [])
    as [C1 C2].
  { rewrite !calls_of_dispatch. unfold expected_calls, phase_calls, phase_passes.
    rewrite Hmw, Hex, Hw, Hns. auto. }
  rewrite start_emit. unfold call.
  rewrite (promise_of_returned _ _ _ _ (P true)),
    (promise_of_returned _ _ _ _ (P false)), N1.
  auto.
Qed.

(** The dispatcher that knows ['order.created'] only:
    [call('user.login', 1)] resolves to the empty array. *)
Lemma dispatch_without_listeners_witness :
  forallb (continues "user.login" (Num 1)) (middleware order_events) = true /\
  get (handlers order_events) "user.login" = Absent /\
  promise (start (call order_events "user.login" (Num 1)) 0)
  = SettlesAt 0 (Fulfilled (Arr [])) /\
  calls_in (trace (start (call order_events "user.login" (Num 1)) 0)) = [].
Proof.
  split; [reflexivity|]. split; [reflexivity|].
  destruct (dispatch_without_listeners order_events "user.login" (Num 1) 0
              eq_refl eq_refl eq_refl eq_refl) as [Hcall [_ [Hcalls _]]].
  split; [exact Hcall|exact Hcalls].
Defined.

(** ** [group] and [emit] *)



(** ** When the constructor completes *)

Lemma register_succeeds event h r :
  inherited event = false -> exists r', register (event, h) r = inr r'.
Proof.
  intros I. pose proof (register_spec event h r) as S.
  destruct (register (event, h) r) as [e|r']; [|eauto].
  destruct S as [_ S]. congruence.
Qed.

Lemma register_entries_succeed entries : forall r,
  (forall event h, In (event, h) entries -> inherited event = false) ->
  exists r', forEach_throwing register entries r = inr r'.
Proof.
  induction entries as [|[event h] entries IH]; intros r H;
    cbn [forEach_throwing]; [eauto|].
  destruct (register_succeeds event h r) as [r1 E].
  { apply (H event h). now left. }
  rewrite E. apply IH. intros event' h' Hin. apply (H event' h'). now right.
Qed.

Lemma register_all_succeeds schemas : forall r,
  (forall event h, In (event, h) (List.concat schemas) -> inherited event = false) ->
  exists r', register_all schemas r = inr r'.
Proof.
  unfold register_all.
  induction schemas as [|schema schemas IH]; intros r H; simpl; [eauto|].
  simpl in H.
  destruct (register_entries_succeed schema r) as [r1 E].
  { intros event h Hin. apply (H event h). apply in_or_app. now left. }
  rewrite E. apply IH. intros event h Hin. apply (H event h).
  apply in_or_app. now right.
Qed.

Lemma register_all_error schemas : forall r e,
  register_all schemas r = inl e -> e = push_is_not_a_function.
Proof.
  unfold register_all.
  induction schemas as [|schema schemas IH]; intros r e; simpl; [discriminate|].
  destruct (forEach_throwing register schema r) as [e1|r1] eqn:E.
  - intros H. inversion H; subst. eapply register_entries_error. exact E.
  - apply IH.
Qed.

(** [new TypedEvents(schemas)] completes exactly when no schema defines an
    event name that [Object.prototype] defines (1); when it throws, it
    throws the [TypeError] of [this.handlers[event].push] (2); the new
    dispatcher has no middleware (3). *)
Theorem construction_completes_exactly_when schemas :
  ((exists this, new_TypedEvents schemas = inr this) <->
   (forall event h, In (event, h) (List.concat schemas) -> inherited event = false)) /\
  (forall e, new_TypedEvents schemas = inl e -> e = push_is_not_a_function) /\
  (forall this, new_TypedEvents schemas = inr this -> middleware this = []).
Proof.
  split; [split|split].
  - intros [this H] event h Hin.
    destruct (inherited event) eqn:I; [|reflexivity].
    unfold new_TypedEvents in H. fold (register_all schemas []) in H.
    rewrite (register_all_prototype_name schemas [] event h) in H; auto;
      [discriminate|].
    intros k _. reflexivity.
  - intros H. unfold new_TypedEvents. fold (register_all schemas []).
    destruct (register_all_succeeds schemas [] H) as [r ->]. eauto.
  - intros e H. unfold new_TypedEvents in H. fold (register_all schemas []) in H.
    destruct (register_all schemas []) as [e1|r] eqn:E; [|discriminate].
    inversion H; subst. eapply register_all_error. exact E.
  - intros this H. now apply new_TypedEvents_inr in H.
Qed.

Lemma forEach_throwing_app (A S : Type) (body : A -> S -> Any + S) l1 : forall l2 s,
  forEach_throwing body (l1 ++ l2) s
  = match forEach_throwing body l1 s with
    | inl e => inl e
    | inr s' => forEach_throwing body l2 s'
    end.
Proof.
  induction l1 as [|x l1 IH]; intros l2 s; simpl; [reflexivity|].
  destruct (body x s); [reflexivity|apply IH].
Qed.

Lemma register_all_concat schemas : forall r,
  register_all schemas r = forEach_throwing register (List.concat schemas) r.
Proof.
  unfold register_all.
  induction schemas as [|schema schemas IH]; intros r; simpl; [reflexivity|].
  rewrite forEach_throwing_app.
  destruct (forEach_throwing register schema r); [reflexivity|apply IH].
Qed.

(** The constructor sees the entries of the schemas one after the other:
    two lists of schemas with the same entries in the same overall order
    give the same dispatcher, or the same error, however the entries are
    divided among the schemas. *)
Theorem schemas_are_read_as_one_list schemas schemas' :
  List.concat schemas = List.concat schemas' ->
  new_TypedEvents schemas = new_TypedEvents schemas'.
Proof.
  intros H. unfold new_TypedEvents.
  fold (register_all schemas []). fold (register_all schemas' []).
  now rewrite !register_all_concat, H.
Qed.

(** The three schemas of the README, and one schema with their five
    entries. *)
Lemma schemas_are_read_as_one_list_witness :
  List.concat Readme.eventSchemas
  = List.concat [Readme.userEvents ++ Readme.orderEvents ++ Readme.globalEvents] /\
  new_TypedEvents Readme.eventSchemas
  = new_TypedEvents [Readme.userEvents ++ Readme.orderEvents ++ Readme.globalEvents].
Proof.
  split; [reflexivity|].
  apply (schemas_are_read_as_one_list Readme.eventSchemas
           [Readme.userEvents ++ Readme.orderEvents ++ Readme.globalEvents]).
  reflexivity.
Defined.

(** ** How long [emit] takes *)

Lemma settlements_latest t payload eventName hs : forall t' ms,
  settlements t (map (promised t payload eventName) hs) = Some (t', ms) ->
  t' = t + latest payload eventName hs.
Proof.
  induction hs as [|h hs IH]; intros t' ms; simpl.
  - intros H. inversion H. lia.
  - unfold promised at 1, invoke.
    destruct (h payload eventName) as [d r| |e]; try discriminate.
    destruct (settlements t (map (promised t payload eventName) hs))
      as [[t1 ms1]|]; [|discriminate].
    intros H. inversion H; subst. rewrite (IH t1 ms1 eq_refl). lia.
Qed.

Lemma broadcast_phase_now this ph key eventName payload s :
  phase_passes this key payload eventName false = true ->
  exists s',
    listeners_phase this ph key eventName payload false s = Returns tt s' /\
    now s' = now s + latest payload eventName (listeners (handlers this) key).
Proof.
  intros P. unfold phase_passes in P.
  destruct (get (handlers this) key) as [|hs|] eqn:G; [| |discriminate].
  - exists s. unfold listeners_phase. rewrite G. split; [reflexivity|].
    unfold get in G. unfold listeners.
    destruct (own (handlers this) key); [discriminate|]. simpl. lia.
  - pose proof (broadcast_phase_outcome this ph key eventName payload s hs G
                  (proj1 (lets_pass_returns _ _ _ _ P))) as O.
    assert (listeners (handlers this) key = hs) as ->.
    { unfold get in G. unfold listeners.
      destruct (own (handlers this) key); [now inversion G|].
      destruct (inherited key); discriminate. }
    destruct (settlements (now s) (map (promised (now s) payload eventName) hs))
      as [[t ms]|] eqn:E.
    + destruct O as [s' [O N]]. exists s'. split; [exact O|].
      rewrite N, (settlements_latest _ _ _ _ _ _ E). lia.
    + exfalso. rewrite <- (lets_pass_invoke false (now s)) in P.
      destruct (settlements_some (now s) _ P) as [t [ms E']]. congruence.
Qed.

(** When [emit] resolves, it does so at the instant of its call plus the
    delays after which the middleware call [next], one after the other,
    plus the delay of the slowest handler of the event name, plus the delay
    of the slowest handler of ['*']: the middleware and the two awaited
    tiers run one after the other, the handlers of one tier together; the
    handlers of the namespace keys do not count. *)
Theorem emit_takes_the_slowest_of_each_tier this eventName payload t0 :
  forallb (continues eventName payload) (middleware this) = true ->
  phase_passes this eventName payload eventName false = true ->
  phase_passes this "*" payload eventName false = true ->
  promise (start (emit this eventName payload) t0)
  = SettlesAt (t0 + middleware_delay eventName payload (middleware this)
                  + latest payload eventName (listeners (handlers this) eventName)
                  + latest payload eventName (listeners (handlers this) "*"))
              (Fulfilled Undefined).
Proof.
  intros Hmw Hex Hw. rewrite start_emit.
  destruct (run_middleware_returns _ _ _ Hmw 0 (initial t0)) as [s1 E1].
  pose proof (run_middleware_now eventName payload (middleware this) 0
                (initial t0) Hmw) as N1.
  rewrite E1 in N1. simpl in N1.
  destruct (broadcast_phase_now this Exact eventName eventName payload s1 Hex)
    as [s2 [E2 N2]].
  destruct (forEach_namespace this eventName payload false
              (filter (namespace_filter eventName) (Object_keys (handlers this))) s2)
    as [s3 [E3 [_ [N3 _]]]].
  destruct (broadcast_phase_now this Wildcard "*" eventName payload s3 Hw)
    as [s4 [E4 N4]].
  assert (processEvent this eventName payload false (initial t0)
          = Returns Undefined s4) as P.
  { unfold processEvent.
    rewrite (@bind_returned _ _ _ _ _ _ _ E1), (@bind_returned _ _ _ _ _ _ _ E2),
      (@bind_returned _ _ _ _ _ _ _ E3), (@bind_returned _ _ _ _ _ _ _ E4).
    reflexivity. }
  rewrite (promise_of_returned _ _ _ _ P). f_equal. lia.
Qed.

(** A middleware that calls [next] after 3 instants, two handlers of
    ['job.done'] that take 2 and 7, a handler of ['job.*'] that takes 20
    and a handler of ['*'] that takes 4: [emit('job.done', 1)] at instant 0
    resolves at instant 3 + 7 + 4. *)
Lemma emit_takes_the_slowest_of_each_tier_witness :
  forallb (continues "job.done" (Num 1)) (middleware timed_events) = true /\
  phase_passes timed_events "job.done" (Num 1) "job.done" false = true /\
  phase_passes timed_events "*" (Num 1) "job.done" false = true /\
  promise (start (emit timed_events "job.done" (Num 1)) 0)
  = SettlesAt 14 (Fulfilled Undefined).
Proof.
  split; [reflexivity|]. split; [reflexivity|]. split; [reflexivity|].
  apply (emit_takes_the_slowest_of_each_tier timed_events "job.done" (Num 1) 0);
    reflexivity.
Defined.
